(** * RPC service runtime: HTTP front end, work queue, path registry, scheduler

    A shallow embedding of [httpserver.cpp] (HTTPRequest, WorkQueue, the
    path-handler registry, the generic request callback, ClientAllowed,
    HTTPBindAddresses) and of the delayed-task scheduler (CScheduler), with
    the properties of the service runtime stated over these definitions. *)

From Stdlib Require Import List String Ascii ZArith Lia Bool Arith Permutation.
From Stdlib Require Import Sorted.
Import ListNotations.

Set Implicit Arguments.
Open Scope Z_scope.

(** ** Failure as [option]

    A failed [assert] or an uncaught C++ exception ends the call; such
    calls return [None]. *)

Definition bind {A B : Type} (m : option A) (k : A -> option B) : option B :=
  match m with
  | Some a => k a
  | None => None
  end.

Notation "x <- m ;; k" := (bind m (fun x => k))
  (at level 61, m at next level, right associativity).
Notation "' p <- m ;; k" := (bind m (fun x => let p := x in k))
  (at level 61, p pattern, m at next level, right associativity).

(** ** std::string *)

Module StdString.

Open Scope string_scope.

(** [s.size()] *)
Definition size (s : string) : nat := String.length s.

(** [s.substr(pos, count)]; [count = None] is the default [npos].
    [pos > size()] throws [std::out_of_range]. *)
Definition substr (s : string) (pos : nat) (count : option nat) : option string :=
  if (size s <? pos)%nat then None
  else Some (substring pos
               (match count with
                | Some n => n
                | None => (size s - pos)%nat
                end) s).

End StdString.

(** ** HTTP status codes

    Modelled from the spec: the constants of [rpcprotocol.h] are not among
    the sources; the spec names the status codes the core emits (403
    unauthorized peer, 404 no handler, 405 unsupported method, 500). *)

Definition HTTP_FORBIDDEN : Z := 403.
Definition HTTP_NOTFOUND : Z := 404.
Definition HTTP_BADMETHOD : Z := 405.
Definition HTTP_INTERNAL : Z := 500.

(** ** libevent's request object, as far as the front end reads it *)

Inductive evhttp_cmd_type : Type :=
| EVHTTP_REQ_GET | EVHTTP_REQ_POST | EVHTTP_REQ_HEAD | EVHTTP_REQ_PUT
| EVHTTP_REQ_DELETE | EVHTTP_REQ_OPTIONS | EVHTTP_REQ_TRACE
| EVHTTP_REQ_CONNECT | EVHTTP_REQ_PATCH.

Inductive RequestMethod : Type := UNKNOWN | GET | POST | HEAD | PUT.

(** A reply handed to the event loop: the send-reply event posted by
    [WriteReply] carries the status; the body is the request's output
    buffer at that moment. *)
Definition Reply : Type := (Z * string)%type.

Section HTTPRequest.

(** [CNetAddr] is a collaborator class (netbase); only its interface is
    used here. *)
Variable CNetAddr : Type.

Record evhttp_request : Type := {
  ev_command : evhttp_cmd_type;
  ev_uri : string;
  ev_peer : CNetAddr;
  ev_output_buffer : string
}.

(** [class HTTPRequest]: the libevent request (null once handed back to
    the main thread) and the reply-sent flag. *)
Record HTTPRequest : Type := {
  req : option evhttp_request;
  replySent : bool
}.

(** [HTTPRequest::HTTPRequest(struct evhttp_request* req)] *)
Definition HTTPRequest_new (r : evhttp_request) : HTTPRequest :=
  {| req := Some r; replySent := false |}.

(** [HTTPRequest::WriteReply]: [assert(!replySent && req)], append the
    body to the output buffer, post the send-reply event, mark the
    request reply-sent and give the libevent request back. *)
Definition WriteReply (h : HTTPRequest) (nStatus : Z) (strReply : string)
  : option (HTTPRequest * Reply) :=
  match negb (replySent h), req h with
  | true, Some r =>
      let evb := (ev_output_buffer r ++ strReply)%string in
      Some ({| req := None; replySent := true |}, (nStatus, evb))
  | _, _ => None
  end.

(** [HTTPRequest::~HTTPRequest]: the replies the destructor posts. *)
Definition HTTPRequest_destroy (h : HTTPRequest) : option (list Reply) :=
  if negb (replySent h) then
    '(_, rep) <- WriteReply h HTTP_INTERNAL "Unhandled request" ;;
    Some [rep]
  else Some [].

Definition GetPeer (h : HTTPRequest) : option CNetAddr :=
  option_map ev_peer (req h).

Definition GetURI (h : HTTPRequest) : option string :=
  option_map ev_uri (req h).

Definition GetRequestMethod (h : HTTPRequest) : option RequestMethod :=
  r <- req h ;;
  Some (match ev_command r with
        | EVHTTP_REQ_GET => GET
        | EVHTTP_REQ_POST => POST
        | EVHTTP_REQ_HEAD => HEAD
        | EVHTTP_REQ_PUT => PUT
        | _ => UNKNOWN
        end).

(** The life of one request object: the [WriteReply] calls made on it,
    in order, then its destruction.  The result is the list of replies
    posted to the event loop, or [None] when an assertion fails. *)
Fixpoint write_replies (h : HTTPRequest) (calls : list (Z * string))
  : option (HTTPRequest * list Reply) :=
  match calls with
  | [] => Some (h, [])
  | (nStatus, strReply) :: rest =>
      '(h1, rep) <- WriteReply h nStatus strReply ;;
      '(h2, reps) <- write_replies h1 rest ;;
      Some (h2, rep :: reps)
  end.

Definition lifetime (r : evhttp_request) (calls : list (Z * string))
  : option (list Reply) :=
  '(h, reps) <- write_replies (HTTPRequest_new r) calls ;;
  last_words <- HTTPRequest_destroy h ;;
  Some (reps ++ last_words).

End HTTPRequest.


(** ** The bounded work queue, [template <typename WorkItem> class WorkQueue] *)

(** [size_t] values are kept as integers in [0, 2^64). *)
Definition size_t : Type := Z.

Section WorkQueue.

Variable WorkItem : Type.

(** The mutex and the condition variable carry no data; every member
    function below runs with the mutex held, so each is one atomic step. *)
Record WorkQueue : Type := {
  queue : list WorkItem;
  running : bool;
  maxDepth : size_t;
  numThreads : Z
}.

(** [WorkQueue(size_t maxDepth)] *)
Definition WorkQueue_new (depth : size_t) : WorkQueue :=
  {| queue := []; running := true; maxDepth := depth; numThreads := 0 |}.

(** [queue.size()] *)
Definition queue_size (q : WorkQueue) : size_t := Z.of_nat (List.length (queue q)).

(** [queue.push_back(item)] *)
Definition push_back (q : WorkQueue) (item : WorkItem) : WorkQueue :=
  {| queue := queue q ++ [item]; running := running q;
     maxDepth := maxDepth q; numThreads := numThreads q |}.

(** [bool Enqueue(WorkItem* item)] *)
Definition Enqueue (q : WorkQueue) (item : WorkItem) : bool * WorkQueue :=
  if queue_size q >=? maxDepth q then (false, q)
  else (true, push_back q item).

(** One pass of the locked block in [Run()]: wait while running with an
    empty queue, leave the loop when not running, otherwise take the
    front item. *)
Inductive RunStep : Type :=
| RunWait
| RunBreak
| RunTake (i : WorkItem) (q : WorkQueue).

Definition Run_locked (q : WorkQueue) : RunStep :=
  if running q then
    match queue q with
    | [] => RunWait
    | i :: rest => RunTake i {| queue := rest;
                                running := running q;
                                maxDepth := maxDepth q;
                                numThreads := numThreads q |}
    end
  else RunBreak.

(** [void Interrupt()] *)
Definition Interrupt (q : WorkQueue) : WorkQueue :=
  {| queue := queue q; running := false;
     maxDepth := maxDepth q; numThreads := numThreads q |}.

(** [ThreadCounter]'s constructor and destructor. *)
Definition ThreadCounter_enter (q : WorkQueue) : WorkQueue :=
  {| queue := queue q; running := running q;
     maxDepth := maxDepth q; numThreads := numThreads q + 1 |}.

Definition ThreadCounter_leave (q : WorkQueue) : WorkQueue :=
  {| queue := queue q; running := running q;
     maxDepth := maxDepth q; numThreads := numThreads q - 1 |}.

(** [size_t Depth()] *)
Definition Depth (q : WorkQueue) : size_t := queue_size q.

(** The operations other threads can perform on a live queue, and the
    state each leaves behind. *)
Inductive QueueOp : Type :=
| OpEnqueue (item : WorkItem)
| OpRun
| OpInterrupt
| OpThreadEnter
| OpThreadLeave
| OpDepth.

Definition apply_op (q : WorkQueue) (op : QueueOp) : WorkQueue :=
  match op with
  | OpEnqueue item => snd (Enqueue q item)
  | OpRun => match Run_locked q with
             | RunTake _ q' => q'
             | RunWait | RunBreak => q
             end
  | OpInterrupt => Interrupt q
  | OpThreadEnter => ThreadCounter_enter q
  | OpThreadLeave => ThreadCounter_leave q
  | OpDepth => q
  end.

Definition run_ops (q : WorkQueue) (ops : list QueueOp) : WorkQueue :=
  fold_left apply_op ops q.

(** [0 <= depth <= capacity] *)
Definition depth_invariant (q : WorkQueue) : Prop :=
  0 <= Depth q <= maxDepth q.

End WorkQueue.

(** ** Path handlers, the ACL and the generic request callback *)

(** The methods [GetRequestMethod] knows: GET, POST, HEAD and PUT. *)
Definition known_method (c : evhttp_cmd_type) : bool :=
  match c with
  | EVHTTP_REQ_GET | EVHTTP_REQ_POST | EVHTTP_REQ_HEAD | EVHTTP_REQ_PUT => true
  | _ => false
  end.

Section FrontEnd.

Variable CNetAddr : Type.
Variable CSubNet : Type.
(** [CNetAddr::IsValid] and [CSubNet::Match] (netbase). *)
Variable IsValid : CNetAddr -> bool.
Variable Match : CSubNet -> CNetAddr -> bool.
(** [HTTPRequestHandler], a [boost::function]. *)
Variable HTTPRequestHandler : Type.

Record HTTPPathHandler : Type := {
  prefix : string;
  exactMatch : bool;
  handler : HTTPRequestHandler
}.

(** [class HTTPWorkItem] *)
Record HTTPWorkItem : Type := {
  item_req : HTTPRequest CNetAddr;
  path : string;
  func : HTTPRequestHandler
}.

(** The module state the callback reads. *)
Record HTTPModule : Type := {
  rpc_allow_subnets : list CSubNet;
  workQueue : option (WorkQueue HTTPWorkItem);
  pathHandlers : list HTTPPathHandler
}.

(** [static bool ClientAllowed(const CNetAddr& netaddr)] *)
Definition ClientAllowed (subnets : list CSubNet) (netaddr : CNetAddr) : bool :=
  if negb (IsValid netaddr) then false
  else existsb (fun subnet => Match subnet netaddr) subnets.

(** The [match] computed for one record in the loop of
    [http_request_cb]. *)
Definition handler_match (strURI : string) (i : HTTPPathHandler) : option bool :=
  if exactMatch i then Some (String.eqb strURI (prefix i))
  else
    head <- StdString.substr strURI 0 (Some (StdString.size (prefix i))) ;;
    Some (String.eqb head (prefix i)).

(** The loop "Find registered handler for prefix": the record the
    iterator stops at and [path], or [Some None] when [i == iend]. *)
Fixpoint find_handler (strURI : string) (hs : list HTTPPathHandler)
  : option (option (HTTPPathHandler * string)) :=
  match hs with
  | [] => Some None
  | i :: rest =>
      m <- handler_match strURI i ;;
      if (m : bool) then
        p <- StdString.substr strURI (StdString.size (prefix i)) None ;;
        Some (Some (i, p))
      else find_handler strURI rest
  end.

Definition set_workQueue (st : HTTPModule) (q : WorkQueue HTTPWorkItem) : HTTPModule :=
  {| rpc_allow_subnets := rpc_allow_subnets st;
     workQueue := Some q;
     pathHandlers := pathHandlers st |}.

(** A reply written on a request that then goes out of scope: the
    [WriteReply] call and the destructor that follows it. *)
Definition reply_and_drop (h : HTTPRequest CNetAddr) (nStatus : Z) (strReply : string)
  : option (list Reply) :=
  '(h', rep) <- WriteReply h nStatus strReply ;;
  rest <- HTTPRequest_destroy h' ;;
  Some (rep :: rest).

(** [static void http_request_cb(struct evhttp_request* req, void* arg)]:
    the module state after the call and the replies posted during it. *)
Definition http_request_cb (st : HTTPModule) (r : evhttp_request CNetAddr)
  : option (HTTPModule * list Reply) :=
  let hreq := HTTPRequest_new r in
  peer <- GetPeer hreq ;;
  if negb (ClientAllowed (rpc_allow_subnets st) peer) then
    out <- reply_and_drop hreq HTTP_FORBIDDEN "" ;;
    Some (st, out)
  else
    m <- GetRequestMethod hreq ;;
    match m with
    | UNKNOWN =>
        out <- reply_and_drop hreq HTTP_BADMETHOD "" ;;
        Some (st, out)
    | _ =>
        strURI <- GetURI hreq ;;
        found <- find_handler strURI (pathHandlers st) ;;
        match found with
        | Some (i, p) =>
            let item := {| item_req := hreq; path := p; func := handler i |} in
            wq <- workQueue st ;;
            let (ok, wq') := Enqueue wq item in
            if ok then Some (set_workQueue st wq', [])
            else
              out <- reply_and_drop (item_req item) HTTP_INTERNAL
                       "Work queue depth exceeded" ;;
              Some (set_workQueue st wq', out)
        | None =>
            out <- reply_and_drop hreq HTTP_NOTFOUND "" ;;
            Some (st, out)
        end
    end.

(** [void RegisterHTTPHandler(prefix, exactMatch, handler)] *)
Definition RegisterHTTPHandler (hs : list HTTPPathHandler)
  (pfx : string) (exact : bool) (h : HTTPRequestHandler) : list HTTPPathHandler :=
  hs ++ [{| prefix := pfx; exactMatch := exact; handler := h |}].

(** [void UnregisterHTTPHandler(prefix, exactMatch)]: erase the record
    the search loop stops at, if any. *)
Fixpoint UnregisterHTTPHandler (hs : list HTTPPathHandler)
  (pfx : string) (exact : bool) : list HTTPPathHandler :=
  match hs with
  | [] => []
  | i :: rest =>
      if String.eqb (prefix i) pfx && Bool.eqb (exactMatch i) exact then rest
      else i :: UnregisterHTTPHandler rest pfx exact
  end.

(** The spec's matching rule: an exact record matches the URI equal to
    its prefix, any other record the URIs that begin with its prefix. *)
Definition spec_matches (uri : string) (i : HTTPPathHandler) : Prop :=
  if exactMatch i then uri = prefix i
  else exists sfx, uri = (prefix i ++ sfx)%string.

(** The test of the search loop in [UnregisterHTTPHandler]. *)
Definition same_key (pfx : string) (exact : bool)
  (i : HTTPPathHandler) : Prop :=
  prefix i = pfx /\ exactMatch i = exact.

End FrontEnd.

(** ** Configuration, the allow list, binding and initialisation *)

(** [mapArgs] and [mapMultiArgs] of the configuration layer. *)
Record Args : Type := {
  mapArgs : string -> option string;
  mapMultiArgs : string -> list string
}.

(** [mapArgs.count(key)] as a truth value. *)
Definition mapArgs_count (a : Args) (key : string) : bool :=
  match mapArgs a key with
  | Some _ => true
  | None => false
  end.

(** Conversions to [int] (32-bit, two's complement) and to [uint16_t]. *)
Definition to_int (z : Z) : Z := (z + 2 ^ 31) mod 2 ^ 32 - 2 ^ 31.
Definition to_uint16 (z : Z) : Z := z mod 2 ^ 16.
Definition to_size_t (z : Z) : size_t := z mod 2 ^ 64.

(** Lines written with [LogPrintf] by the functions below. *)
Inductive LogEntry : Type :=
| LogRpcbindIgnored
| LogBindFailed (host : string) (port : Z)
| LogCreatingWorkQueue (depth : Z).

Section Init.

Variable CSubNet : Type.
(** [CSubNet(const std::string&)] and [CSubNet::IsValid] (netbase). *)
Variable CSubNet_parse : string -> CSubNet.
Variable CSubNet_IsValid : CSubNet -> bool.

(** [GetArg(name, nDefault)] and [GetBoolArg] of the configuration layer,
    and [BaseParams().RPCPort()]. *)
Variable GetArg : Args -> string -> Z -> Z.
Variable GetBoolArg : Args -> string -> bool -> bool.
Variable RPCPort : Z.

(** [SplitHostPort(in, portOut, hostOut)] (netbase): the values of
    [portOut] and [hostOut] after the call, from their values before. *)
Variable SplitHostPort : string -> Z -> string -> Z * string.

(** libevent: the state behind [evhttp_bind_socket_with_handle] and the
    handles it returns ([None] is a null handle). *)
Variable Net : Type.
Variable evhttp_bound_socket : Type.
Variable evhttp_bind_socket_with_handle :
  Net -> option string -> Z -> Net * option evhttp_bound_socket.

Variable HTTPWorkItem : Type.

(** [static bool InitHTTPAllowList()]: the new [rpc_allow_subnets], or
    [None] when the function returns false. *)
Fixpoint parse_allow (vAllow : list string) (acc : list CSubNet)
  : option (list CSubNet) :=
  match vAllow with
  | [] => Some acc
  | strAllow :: rest =>
      let subnet := CSubNet_parse strAllow in
      if negb (CSubNet_IsValid subnet) then None
      else parse_allow rest (acc ++ [subnet])
  end.

Definition InitHTTPAllowList (a : Args) : option (list CSubNet) :=
  let subnets := [CSubNet_parse "127.0.0.0/8"; CSubNet_parse "::1"] in
  parse_allow (mapMultiArgs a "-rpcallowip") subnets.

Record BindState : Type := {
  net : Net;
  boundSockets : list evhttp_bound_socket;
  log : list LogEntry
}.

(** "Determine what addresses to bind to": the [endpoints] vector and
    the warning, if one is written. *)
Definition bind_endpoints (a : Args) (defaultPort : Z)
  : list (string * Z) * list LogEntry :=
  if negb (mapArgs_count a "-rpcallowip") then
    ([("::1"%string, to_uint16 defaultPort);
      ("127.0.0.1"%string, to_uint16 defaultPort)],
     if mapArgs_count a "-rpcbind" then [LogRpcbindIgnored] else [])
  else if mapArgs_count a "-rpcbind" then
    (map (fun i =>
            let '(port, host) := SplitHostPort i defaultPort ""%string in
            (host, to_uint16 port))
         (mapMultiArgs a "-rpcbind"),
     [])
  else
    ([("::"%string, to_uint16 defaultPort);
      ("0.0.0.0"%string, to_uint16 defaultPort)],
     []).

(** "Bind addresses": the loop over [endpoints]. *)
Fixpoint bind_all (st : BindState) (endpoints : list (string * Z)) : BindState :=
  match endpoints with
  | [] => st
  | (host, port) :: rest =>
      let address := if String.eqb host ""%string then None else Some host in
      let (net', bind_handle) := evhttp_bind_socket_with_handle (net st) address port in
      match bind_handle with
      | Some s =>
          bind_all {| net := net';
                      boundSockets := boundSockets st ++ [s];
                      log := log st |} rest
      | None =>
          bind_all {| net := net';
                      boundSockets := boundSockets st;
                      log := log st ++ [LogBindFailed host port] |} rest
      end
  end.

(** [static bool HTTPBindAddresses(struct evhttp* http)] *)
Definition HTTPBindAddresses (a : Args) (st : BindState) : bool * BindState :=
  let defaultPort := to_int (GetArg a "-rpcport" RPCPort) in
  let (endpoints, warning) := bind_endpoints a defaultPort in
  let st1 := {| net := net st;
                boundSockets := boundSockets st;
                log := log st ++ warning |} in
  let st2 := bind_all st1 endpoints in
  (negb (match boundSockets st2 with [] => true | _ => false end), st2).

(** Modelled from the spec: [DEFAULT_HTTP_WORKQUEUE] of [httpserver.h] is
    not among the sources; the spec gives the default work-queue
    capacity as 16. *)
Definition DEFAULT_HTTP_WORKQUEUE : Z := 16.

(** What [InitHTTPServer] leaves behind when it returns true. *)
Record Initialized : Type := {
  init_subnets : list CSubNet;
  init_bind : BindState;
  init_workQueue : WorkQueue HTTPWorkItem
}.

(** [bool InitHTTPServer()]: [event_base_ok] and [evhttp_ok] say whether
    [event_base_new] and [evhttp_new] return an object; [None] is the
    return value false. *)
Definition InitHTTPServer (a : Args) (event_base_ok evhttp_ok : bool) (st : BindState)
  : option Initialized :=
  subnets <- InitHTTPAllowList a ;;
  if GetBoolArg a "-rpcssl" false then None
  else if negb event_base_ok then None
  else if negb evhttp_ok then None
  else
    let (bound, st') := HTTPBindAddresses a st in
    if negb bound then None
    else
      let workQueueDepth :=
        to_int (Z.max (GetArg a "-rpcworkqueue" DEFAULT_HTTP_WORKQUEUE) 1) in
      Some {| init_subnets := subnets;
              init_bind := {| net := net st';
                              boundSockets := boundSockets st';
                              log := log st' ++ [LogCreatingWorkQueue workQueueDepth] |};
              init_workQueue := WorkQueue_new HTTPWorkItem (to_size_t workQueueDepth) |}.

(** The handles of the binds that succeed, one endpoint after the other. *)
Fixpoint bound_handles (n : Net) (endpoints : list (string * Z))
  : list evhttp_bound_socket :=
  match endpoints with
  | [] => []
  | (host, port) :: rest =>
      let address := if String.eqb host ""%string then None else Some host in
      let (n', bind_handle) := evhttp_bind_socket_with_handle n address port in
      match bind_handle with
      | Some s => s :: bound_handles n' rest
      | None => bound_handles n' rest
      end
  end.

End Init.

(** ** The delayed-task scheduler, [class CScheduler] *)

Module Scheduler.

(** [boost::chrono::system_clock::time_point], counted in clock ticks. *)
Definition time_point : Type := Z.

(** Ticks of [boost::chrono::system_clock] (nanoseconds) per second. *)
Definition ticks_per_second : Z := 1000000000.

(** [boost::chrono::seconds(deltaSeconds)] as a clock duration. *)
Definition seconds (deltaSeconds : Z) : Z := deltaSeconds * ticks_per_second.

(** The clock's count of ticks is an [int64_t], and so is the count of a
    duration: a sum or product of counts is its value in 64 bits, two's
    complement. *)
Definition to_int64 (z : Z) : Z := (z + 2 ^ 63) mod 2 ^ 64 - 2 ^ 63.

Definition fits_int64 (z : Z) : Prop := - 2 ^ 63 <= z < 2 ^ 63.

(** [t + boost::chrono::seconds(deltaSeconds)]: the seconds are brought
    to the clock's period, then added to the time point's count. *)
Definition plus_seconds (t : time_point) (deltaSeconds : Z) : time_point :=
  to_int64 (t + to_int64 (seconds deltaSeconds)).

Section WithUserFunctions.

(** The function objects callers hand to the scheduler. *)
Variable UserFn : Type.

(** The version of Boost the file is compiled against. *)
Variable BOOST_VERSION : Z.

(** [CScheduler::Function]: a caller's function object, or the closure
    [boost::bind(&Repeat, s, f, deltaSeconds)]. *)
Inductive Function : Type :=
| Call (f : UserFn)
| BindRepeat (f : UserFn) (deltaSeconds : Z).

(** A value of [taskQueue].  Only [task_fn] exists in the program; the
    other fields are book-keeping for the statements below: a number
    unique to the insertion, the clock reading when it was inserted, and
    the insertion number of the run of [Repeat] that posted it, if one
    did.  No operation below inspects them. *)
Record Task : Type := {
  task_id : nat;
  task_posted : time_point;
  task_parent : option nat;
  task_fn : Function
}.

(** [std::multimap<time_point, Function>], in key order. *)
Definition TaskQueue : Type := list (time_point * Task).

(** [taskQueue.insert(std::make_pair(t, f))]: after the entries whose
    key is not greater than [t]. *)
Fixpoint insert (t : time_point) (f : Task) (q : TaskQueue) : TaskQueue :=
  match q with
  | [] => [(t, f)]
  | (t', f') :: rest =>
      if t <? t' then (t, f) :: q else (t', f') :: insert t f rest
  end.

Record CScheduler : Type := {
  taskQueue : TaskQueue;
  nThreadsServicingQueue : Z;
  stopRequested : bool;
  stopWhenEmpty : bool
}.

(** [CScheduler::CScheduler()] *)
Definition CScheduler_new : CScheduler :=
  {| taskQueue := []; nThreadsServicingQueue := 0;
     stopRequested := false; stopWhenEmpty := false |}.

Definition empty (q : TaskQueue) : bool :=
  match q with
  | [] => true
  | _ :: _ => false
  end.

(** Modelled from the spec: [shouldStop] is defined in [scheduler.h],
    which is not among the sources; the spec gives it as
    [stop_requested || (stop_when_empty && queue.empty())]. *)
Definition shouldStop (s : CScheduler) : bool :=
  stopRequested s || (stopWhenEmpty s && empty (taskQueue s)).

Definition set_taskQueue (s : CScheduler) (q : TaskQueue) : CScheduler :=
  {| taskQueue := q;
     nThreadsServicingQueue := nThreadsServicingQueue s;
     stopRequested := stopRequested s;
     stopWhenEmpty := stopWhenEmpty s |}.

Definition add_threads (s : CScheduler) (d : Z) : CScheduler :=
  {| taskQueue := taskQueue s;
     nThreadsServicingQueue := nThreadsServicingQueue s + d;
     stopRequested := stopRequested s;
     stopWhenEmpty := stopWhenEmpty s |}.

(** [void CScheduler::stop(bool drain)] *)
Definition stop (s : CScheduler) (drain : bool) : CScheduler :=
  {| taskQueue := taskQueue s;
     nThreadsServicingQueue := nThreadsServicingQueue s;
     stopRequested := if drain then stopRequested s else true;
     stopWhenEmpty := if drain then true else stopWhenEmpty s |}.

(** [toPosixTime]: the time point cut down to whole seconds
    ([from_time_t(to_time_t(t))]). *)
Definition toPosixTime (t : time_point) : time_point :=
  Z.quot t ticks_per_second * ticks_per_second.

(** The absolute time handed to the timed wait on the condition
    variable: [timed_wait(lock, toPosixTime(t))] before Boost 1.50,
    [wait_until(lock, t)] from 1.50 on. *)
Definition wait_deadline (t : time_point) : time_point :=
  if BOOST_VERSION <? 105000 then toPosixTime t else t.

(** One call of a task's function by a service thread: when it was
    called and the queue entry (key and value) that was erased for it. *)
Record Invocation : Type := {
  inv_time : time_point;
  inv_key : time_point;
  inv_task : Task
}.

(** Where a thread that called [serviceQueue] stands.  The mutex is held
    except while waiting and while the task's function runs, so the code
    between two such points is one atomic step. *)
Inductive ThreadState : Type :=
| Ready
| WaitEmpty
| WaitUntil (t : time_point)
| Calling (v : Invocation)
| Exited.

(** The scheduler, the clock and the threads servicing the queue;
    [trace] lists the calls made so far, latest first. *)
Record World : Type := {
  sched : CScheduler;
  now : time_point;
  threads : list ThreadState;
  next_id : nat;
  trace : list Invocation
}.

Definition World_new (t0 : time_point) : World :=
  {| sched := CScheduler_new; now := t0; threads := [];
     next_id := 0; trace := [] |}.

Fixpoint update {A : Type} (i : nat) (x : A) (l : list A) : list A :=
  match l, i with
  | [], _ => []
  | _ :: rest, O => x :: rest
  | y :: rest, S j => y :: update j x rest
  end.

Definition set_thread (w : World) (i : nat) (ts : ThreadState) : World :=
  {| sched := sched w; now := now w;
     threads := update i ts (threads w);
     next_id := next_id w; trace := trace w |}.

Definition set_sched (w : World) (s : CScheduler) : World :=
  {| sched := s; now := now w; threads := threads w;
     next_id := next_id w; trace := trace w |}.

(** [void CScheduler::schedule(Function f, time_point t)], with the
    book-keeping of the new entry. *)
Definition schedule (w : World) (parent : option nat) (f : Function) (t : time_point)
  : World :=
  let task := {| task_id := next_id w; task_posted := now w;
                 task_parent := parent; task_fn := f |} in
  {| sched := set_taskQueue (sched w) (insert t task (taskQueue (sched w)));
     now := now w; threads := threads w;
     next_id := S (next_id w); trace := trace w |}.

(** [void CScheduler::scheduleFromNow(Function f, int64_t deltaSeconds)] *)
Definition scheduleFromNow (w : World) (parent : option nat) (f : Function)
  (deltaSeconds : Z) : World :=
  schedule w parent f (plus_seconds (now w) deltaSeconds).

(** [void CScheduler::scheduleEvery(Function f, int64_t deltaSeconds)] *)
Definition scheduleEvery (w : World) (f : UserFn) (deltaSeconds : Z) : World :=
  scheduleFromNow w None (BindRepeat f deltaSeconds) deltaSeconds.

(** [static void Repeat(CScheduler* s, Function f, int64_t
    deltaSeconds)], from the point where [f()] has returned. *)
Definition Repeat_after_f (w : World) (self : Task) (f : UserFn) (deltaSeconds : Z)
  : World :=
  scheduleFromNow w (Some (task_id self)) (BindRepeat f deltaSeconds) deltaSeconds.

(** The head of the loop in [serviceQueue], run with the mutex held up
    to the next wait or to the end of the function. *)
Definition loop_head (w : World) (i : nat) : World :=
  if shouldStop (sched w) then
    set_thread (set_sched w (add_threads (sched w) (-1))) i Exited
  else
    match taskQueue (sched w) with
    | [] => set_thread w i WaitEmpty
    | (t, _) :: _ => set_thread w i (WaitUntil (wait_deadline t))
    end.

(** After the timed wait has timed out: [continue] when the scheduler
    should stop or the queue is empty, otherwise erase the first entry
    and call its function with the mutex released. *)
Definition after_timeout (w : World) (i : nat) : World :=
  if shouldStop (sched w) || empty (taskQueue (sched w)) then loop_head w i
  else
    match taskQueue (sched w) with
    | [] => w
    | (t, f) :: rest =>
        let v := {| inv_time := now w; inv_key := t; inv_task := f |} in
        {| sched := set_taskQueue (sched w) rest;
           now := now w;
           threads := update i (Calling v) (threads w);
           next_id := next_id w;
           trace := v :: trace w |}
    end.

(** What can happen next: the clock advances by [d]; a new thread calls
    [serviceQueue] and runs to its first wait; thread [i] takes the mutex
    again after its task returned, or returns from a wait without a
    timeout (notified, or woken for no reason); thread [i]'s timed wait
    times out; the function thread [i] called returns; an exception
    leaves [serviceQueue] in thread [i] (thrown by the task's function,
    or by a wait when the thread is interrupted); some thread calls
    [schedule], [scheduleFromNow], [scheduleEvery] or [stop]. *)
Inductive Event : Type :=
| Tick (d : Z)
| Enter
| Resume (i : nat)
| Timeout (i : nat)
| Return (i : nat)
| Throw (i : nat)
| DoSchedule (f : UserFn) (t : time_point)
| DoScheduleFromNow (f : UserFn) (deltaSeconds : Z)
| DoScheduleEvery (f : UserFn) (deltaSeconds : Z)
| DoStop (drain : bool).

(** One step; [None] when the event cannot happen in this state. *)
Definition step (w : World) (e : Event) : option World :=
  match e with
  | Tick d =>
      if 0 <=? d then
        Some {| sched := sched w; now := now w + d; threads := threads w;
                next_id := next_id w; trace := trace w |}
      else None
  | Enter =>
      let i := List.length (threads w) in
      Some (loop_head {| sched := add_threads (sched w) 1; now := now w;
                         threads := threads w ++ [Ready];
                         next_id := next_id w; trace := trace w |} i)
  | Resume i =>
      match nth_error (threads w) i with
      | Some Ready | Some WaitEmpty | Some (WaitUntil _) => Some (loop_head w i)
      | _ => None
      end
  | Timeout i =>
      match nth_error (threads w) i with
      | Some (WaitUntil t) => if t <=? now w then Some (after_timeout w i) else None
      | _ => None
      end
  | Return i =>
      match nth_error (threads w) i with
      | Some (Calling v) =>
          let w' := match task_fn (inv_task v) with
                    | Call _ => w
                    | BindRepeat f deltaSeconds =>
                        Repeat_after_f w (inv_task v) f deltaSeconds
                    end in
          Some (set_thread w' i Ready)
      | _ => None
      end
  | Throw i =>
      match nth_error (threads w) i with
      | Some (Calling _) | Some WaitEmpty | Some (WaitUntil _) =>
          Some (set_thread (set_sched w (add_threads (sched w) (-1))) i Exited)
      | _ => None
      end
  | DoSchedule f t => Some (schedule w None (Call f) t)
  | DoScheduleFromNow f deltaSeconds =>
      Some (scheduleFromNow w None (Call f) deltaSeconds)
  | DoScheduleEvery f deltaSeconds => Some (scheduleEvery w f deltaSeconds)
  | DoStop drain => Some (set_sched w (stop (sched w) drain))
  end.

Fixpoint run (w : World) (es : list Event) : option World :=
  match es with
  | [] => Some w
  | e :: rest =>
      w' <- step w e ;;
      run w' rest
  end.

(** *** The kinds of step, and what holds along a run

    Every step is of one of three kinds: it leaves the queue and the
    trace alone; it inserts one new task; or a thread whose timed wait
    has timed out erases the first task and calls it. *)

Implicit Types (w : World) (q : TaskQueue) (f : Task) (v : Invocation)
  (ts : ThreadState).

(** The states a thread can be put in without touching the queue. *)
Definition parked w ts : Prop :=
  ts = Ready \/ ts = Exited \/ ts = WaitEmpty
  \/ exists t f rest,
       taskQueue (sched w) = (t, f) :: rest
       /\ ts = WaitUntil (wait_deadline t).

(** The thread list after a step that calls no task: as before, with one
    thread parked, or with a new thread, parked. *)
Inductive threads_change w : list ThreadState -> Prop :=
| tc_same : threads_change w (threads w)
| tc_update i ts : parked w ts -> threads_change w (update i ts (threads w))
| tc_new ts : parked w ts -> threads_change w (threads w ++ [ts]).

(** Where a new task comes from: a caller's [schedule] or
    [scheduleFromNow], a call of [scheduleEvery], or a run of [Repeat]
    whose [f()] has returned. *)
Definition posted_by w (t : time_point) f : Prop :=
  (exists u, task_fn f = Call u)
  \/ (exists u delta,
         task_fn f = BindRepeat u delta
         /\ t = plus_seconds (now w) delta
         /\ (task_parent f = None
             \/ exists i v,
                 nth_error (threads w) i = Some (Calling v)
                 /\ task_parent f = Some (task_id (inv_task v))
                 /\ task_fn (inv_task v) = BindRepeat u delta)).

(** The three kinds of step from [w] to [w']. *)
Inductive transition w w' : Prop :=
| tr_quiet :
    taskQueue (sched w') = taskQueue (sched w) ->
    trace w' = trace w ->
    next_id w' = next_id w ->
    now w <= now w' ->
    threads_change w (threads w') ->
    transition w w'
| tr_insert t f :
    taskQueue (sched w') = insert t f (taskQueue (sched w)) ->
    task_id f = next_id w ->
    task_posted f = now w ->
    posted_by w t f ->
    next_id w' = S (next_id w) ->
    trace w' = trace w ->
    now w' = now w ->
    (threads w' = threads w \/ exists i, threads w' = update i Ready (threads w)) ->
    transition w w'
| tr_take i t0 t f rest :
    nth_error (threads w) i = Some (WaitUntil t0) ->
    t0 <= now w ->
    taskQueue (sched w) = (t, f) :: rest ->
    taskQueue (sched w') = rest ->
    trace w' = {| inv_time := now w; inv_key := t; inv_task := f |} :: trace w ->
    threads w' = update i (Calling {| inv_time := now w; inv_key := t; inv_task := f |})
                   (threads w) ->
    next_id w' = next_id w ->
    now w' = now w ->
    transition w w'.

(** Every reachable world is reached by transitions. *)
Inductive reachable (w0 : World) : World -> Prop :=
| reach_refl : reachable w0 w0
| reach_step w w' : reachable w0 w -> transition w w' -> reachable w0 w'.

(** Insertion numbers, of queue entries and of calls. *)
Definition queue_ids q : list nat := map (fun e => task_id (snd e)) q.
Definition trace_ids (tr : list Invocation) : list nat :=
  map (fun v => task_id (inv_task v)) tr.

(** The insertion numbers of the tasks waiting in the queue and of the
    tasks called so far. *)
Definition ids w : list nat :=
  queue_ids (taskQueue (sched w)) ++ trace_ids (trace w).

(** No insertion number occurs twice, and all were handed out. *)
Definition ids_ok w : Prop :=
  NoDup (ids w) /\ Forall (fun n => (n < next_id w)%nat) (ids w).



(** A thread in a timed wait waits no longer than for the first key of
    the queue, and no call in the trace was early. *)
Definition punctual w : Prop :=
  (forall t, In (WaitUntil t) (threads w) ->
             exists t0 f0 rest, taskQueue (sched w) = (t0, f0) :: rest /\ t0 <= t)
  /\ Forall (fun v => inv_key v <= inv_time v) (trace w).

End WithUserFunctions.

Arguments Ready {UserFn}.
Arguments WaitEmpty {UserFn}.
Arguments WaitUntil {UserFn} t.
Arguments Exited {UserFn}.
Arguments Tick {UserFn} d.
Arguments Enter {UserFn}.
Arguments Resume {UserFn} i.
Arguments Timeout {UserFn} i.
Arguments Return {UserFn} i.
Arguments Throw {UserFn} i.
Arguments DoStop {UserFn} drain.
Arguments CScheduler_new {UserFn}.
Arguments World_new {UserFn} t0.

(** What the trace says of each call, latest first: the function, when
    it was put in the queue, the key it was queued under and the time it
    was called. *)
Definition calls (UserFn : Type) (w : option (World UserFn))
  : option (list (Function UserFn * time_point * time_point * time_point)) :=
  option_map
    (fun w => map (fun v => (task_fn (inv_task v), task_posted (inv_task v),
                             inv_key v, inv_time v))
                  (trace w)) w.

End Scheduler.

(** ** Concrete data

    For the front end: peers are numbers, 0 standing for an address that
    is not valid; a subnet is the list of the peers it matches; handlers
    are numbered. *)

Module Concrete.
Open Scope string_scope.

Definition IsValid (a : nat) : bool := negb (Nat.eqb a 0).
Definition Match (subnet : list nat) (a : nat) : bool := existsb (Nat.eqb a) subnet.

Definition request (c : evhttp_cmd_type) (uri : string) (peer : nat) : evhttp_request nat :=
  {| ev_command := c; ev_uri := uri; ev_peer := peer; ev_output_buffer := "" |}.

Definition rest_handler : HTTPPathHandler nat :=
  {| prefix := "/rest/"; exactMatch := false; handler := 1%nat |}.
Definition root_handler : HTTPPathHandler nat :=
  {| prefix := "/"; exactMatch := true; handler := 2%nat |}.
Definition any_handler : HTTPPathHandler nat :=
  {| prefix := "/"; exactMatch := false; handler := 3%nat |}.

Definition module_state (capacity : Z) : HTTPModule nat (list nat) nat :=
  {| rpc_allow_subnets := [[1%nat; 2%nat]];
     workQueue := Some (WorkQueue_new _ capacity);
     pathHandlers := [rest_handler; root_handler] |}.

End Concrete.

(** A host on which only IPv4 addresses can be bound: the network state
    is the list of endpoints bound so far, the handle of a socket its
    number in that list. *)

Module ConcreteBind.
Open Scope string_scope.

Definition bind (n : list (string * Z)) (address : option string) (port : Z)
  : list (string * Z) * option nat :=
  match address with
  | Some host =>
      if existsb (String.eqb host) ["127.0.0.1"; "0.0.0.0"; "192.168.1.2"]
      then ((n ++ [(host, port)])%list, Some (List.length n))
      else (n, None)
  | None => (n, None)
  end.

(** Takes a value [host:port] apart when the port is [8332]. *)
Definition split (i : string) (port : Z) (host : string) : Z * string :=
  if String.eqb i "192.168.1.2:8332" then (8332, "192.168.1.2") else (port, i).

Definition args (allow bindto : list string) : Args :=
  {| mapArgs := fun key =>
       if String.eqb key "-rpcallowip" then hd_error allow
       else if String.eqb key "-rpcbind" then hd_error bindto
       else None;
     mapMultiArgs := fun key =>
       if String.eqb key "-rpcallowip" then allow
       else if String.eqb key "-rpcbind" then bindto
       else [] |}.

Definition get (a : Args) (key : string) (nDefault : Z) : Z := nDefault.

Definition start : BindState (list (string * Z)) nat :=
  {| net := []; boundSockets := []; log := [] |}.

End ConcreteBind.

(** Runs of the scheduler on tasks named by strings; times are in clock
    ticks. *)

Module SchedulerRuns.
Import Scheduler.
Open Scope string_scope.

(** Two threads service the queue; task A is due at 1000, task B at
    5000.  Both threads wait for 1000.  At 1000 both waits time out: the
    first thread takes A, the second finds the queue not empty and
    takes B, 4000 ticks before its time. *)
Definition two_threads : list (Event string) :=
  [DoSchedule "A" 1000; DoSchedule "B" 5000; Enter; Enter;
   Tick 1000; Timeout 0; Timeout 1].

(** One thread, [scheduleEvery(f, 1)] at time 0.  [f] is first called at
    1 s and returns at once, so the closure is queued again for 2 s.
    Task [g], due at 1 s, is called next and runs for 5 s.  The second
    call of [f] is at 6 s. *)
Definition busy_thread : list (Event string) :=
  [Enter; DoScheduleEvery "f" 1; Resume 0;
   Tick 1000000000; Timeout 0;
   DoSchedule "g" 1000000000; Return 0; Resume 0; Timeout 0;
   Tick 5000000000; Return 0; Resume 0; Timeout 0].

(** One thread, [scheduleEvery(f, 9223372037)]: the period in ticks
    plus the clock reading is more than 64 bits hold. *)
Definition long_period : list (Event string) :=
  [Enter; DoScheduleEvery "f" 9223372037; Resume 0; Timeout 0].

End SchedulerRuns.

(** ** The work queue over a sequence of operations, and its end *)

Section WorkQueueLog.

Variable WorkItem : Type.

(** The item one operation puts in the queue, if [Enqueue] accepts it,
    and the item it takes out, if the locked block of [Run] takes one. *)
Definition accepted_by (q : WorkQueue WorkItem) (op : QueueOp WorkItem)
  : list WorkItem :=
  match op with
  | OpEnqueue item => if fst (Enqueue q item) then [item] else []
  | _ => []
  end.

Definition taken_by (q : WorkQueue WorkItem) (op : QueueOp WorkItem)
  : list WorkItem :=
  match op with
  | OpRun _ => match Run_locked q with
               | RunTake i _ => [i]
               | RunWait _ | RunBreak _ => []
               end
  | _ => []
  end.

(** The items accepted and the items taken along a sequence of
    operations, each in the order it happened. *)
Fixpoint accepted_items (q : WorkQueue WorkItem) (ops : list (QueueOp WorkItem))
  : list WorkItem :=
  match ops with
  | [] => []
  | op :: rest => accepted_by q op ++ accepted_items (apply_op q op) rest
  end.

Fixpoint taken_items (q : WorkQueue WorkItem) (ops : list (QueueOp WorkItem))
  : list WorkItem :=
  match ops with
  | [] => []
  | op :: rest => taken_by q op ++ taken_items (apply_op q op) rest
  end.

(** [~WorkQueue()]: the items deleted, front first. *)
Definition WorkQueue_destroy (q : WorkQueue WorkItem) : list WorkItem := queue q.

End WorkQueueLog.

(** ** Requests from arrival to reply *)

Section Service.

Variable CNetAddr : Type.
Variable CSubNet : Type.
Variable IsValid : CNetAddr -> bool.
Variable Match : CSubNet -> CNetAddr -> bool.
Variable HTTPRequestHandler : Type.

(** [HTTPWorkItem::operator()]: [func(req.get(), path)].  Of what the
    handler does only its [WriteReply] calls on the request matter here;
    [calls] lists them in order. *)
Definition HTTPWorkItem_call (item : HTTPWorkItem CNetAddr HTTPRequestHandler)
  (calls : list (Z * string))
  : option (HTTPWorkItem CNetAddr HTTPRequestHandler * list Reply) :=
  '(h, reps) <- write_replies (item_req item) calls ;;
  Some ({| item_req := h; path := path item; func := func item |}, reps).

(** Deleting a work item: its [scoped_ptr] deletes the request. *)
Definition HTTPWorkItem_delete (item : HTTPWorkItem CNetAddr HTTPRequestHandler)
  : option (list Reply) :=
  HTTPRequest_destroy (item_req item).

(** One pass of the loop in [Run()] by a worker: take the front item
    under the mutex, call it, delete it. *)
Definition Run_iteration (wq : WorkQueue (HTTPWorkItem CNetAddr HTTPRequestHandler))
  (calls : list (Z * string))
  : option (WorkQueue (HTTPWorkItem CNetAddr HTTPRequestHandler) * list Reply) :=
  match Run_locked wq with
  | RunTake i wq' =>
      '(i', reps) <- HTTPWorkItem_call i calls ;;
      last_words <- HTTPWorkItem_delete i' ;;
      Some (wq', reps ++ last_words)
  | RunWait _ | RunBreak _ => Some (wq, [])
  end.

(** [~WorkQueue()] on the queue of HTTP work items: the replies posted
    while the queued items are deleted, front first. *)
Fixpoint delete_items (items : list (HTTPWorkItem CNetAddr HTTPRequestHandler))
  : option (list Reply) :=
  match items with
  | [] => Some []
  | item :: rest =>
      last_words <- HTTPWorkItem_delete item ;;
      more <- delete_items rest ;;
      Some (last_words ++ more)
  end.

Definition HTTPWorkQueue_destroy
  (wq : WorkQueue (HTTPWorkItem CNetAddr HTTPRequestHandler)) : option (list Reply) :=
  delete_items (WorkQueue_destroy wq).

(** What happens to the HTTP module between [InitHTTPServer] and the end
    of the work queue: a request comes in on the event thread; a worker
    makes one pass of its loop, the handler it calls making the given
    [WriteReply] calls; the work queue is interrupted. *)
Inductive ServiceEvent : Type :=
| Incoming (r : evhttp_request CNetAddr)
| WorkerPass (calls : list (Z * string))
| QueueInterrupt.

Definition service_step (st : HTTPModule CNetAddr CSubNet HTTPRequestHandler)
  (ev : ServiceEvent)
  : option (HTTPModule CNetAddr CSubNet HTTPRequestHandler * list Reply) :=
  match ev with
  | Incoming r => http_request_cb IsValid Match st r
  | WorkerPass calls =>
      match workQueue st with
      | Some wq =>
          '(wq', out) <- Run_iteration wq calls ;;
          Some (set_workQueue st wq', out)
      | None => Some (st, [])
      end
  | QueueInterrupt =>
      match workQueue st with
      | Some wq => Some (set_workQueue st (Interrupt wq), [])
      | None => Some (st, [])
      end
  end.

(** A sequence of events: the state it ends in and all replies posted. *)
Fixpoint service (st : HTTPModule CNetAddr CSubNet HTTPRequestHandler)
  (evs : list ServiceEvent)
  : option (HTTPModule CNetAddr CSubNet HTTPRequestHandler * list Reply) :=
  match evs with
  | [] => Some (st, [])
  | ev :: rest =>
      '(st1, out1) <- service_step st ev ;;
      '(st2, out2) <- service st1 rest ;;
      Some (st2, out1 ++ out2)
  end.

(** The requests that came in. *)
Fixpoint incoming (evs : list ServiceEvent) : list (evhttp_request CNetAddr) :=
  match evs with
  | [] => []
  | Incoming r :: rest => r :: incoming rest
  | _ :: rest => incoming rest
  end.

(** The queued work items hold requests no reply was written on. *)
Definition unanswered (wq : WorkQueue (HTTPWorkItem CNetAddr HTTPRequestHandler))
  : Prop :=
  Forall (fun item => exists r, item_req item = HTTPRequest_new r) (queue wq).

(** No handler writes more than one reply. *)
Definition handlers_reply_once (evs : list ServiceEvent) : Prop :=
  forall calls, In (WorkerPass calls) evs -> (List.length calls <= 1)%nat.

End Service.

(** ** Binding, seen from the log *)

Section BindLog.

Variable Net : Type.
Variable evhttp_bound_socket : Type.
Variable evhttp_bind_socket_with_handle :
  Net -> option string -> Z -> Net * option evhttp_bound_socket.

(** The endpoints whose bind fails, one endpoint after the other. *)
Fixpoint failed_endpoints (n : Net) (endpoints : list (string * Z))
  : list (string * Z) :=
  match endpoints with
  | [] => []
  | (host, port) :: rest =>
      let address := if String.eqb host ""%string then None else Some host in
      let (n', bind_handle) := evhttp_bind_socket_with_handle n address port in
      match bind_handle with
      | Some _ => failed_endpoints n' rest
      | None => (host, port) :: failed_endpoints n' rest
      end
  end.

End BindLog.

(** ** Interrupting the HTTP server *)

(** Modelled from the spec: [HTTP_SERVUNAVAIL] of [rpcprotocol.h] is not
    among the sources; the spec gives the status of the shutdown window
    as 503. *)
Definition HTTP_SERVUNAVAIL : Z := 503.

(** The generic callback installed in the [evhttp] object. *)
Inductive GenericCallback : Type :=
| use_http_request_cb
| use_http_reject_request_cb.

Section Lifecycle.

Variable CNetAddr : Type.
Variable CSubNet : Type.
Variable IsValid : CNetAddr -> bool.
Variable Match : CSubNet -> CNetAddr -> bool.
Variable HTTPRequestHandler : Type.

(** libevent: bound sockets compared as pointers, and the body
    [evhttp_send_error] writes for a status when given no reason. *)
Variable evhttp_bound_socket : Type.
Variable same_socket : evhttp_bound_socket -> evhttp_bound_socket -> bool.
Variable evhttp_error_body : Z -> string.

(** [struct evhttp], as far as this file drives it: the generic
    callback and the sockets it accepts connections on. *)
Record evhttp : Type := {
  gencb : GenericCallback;
  accepting : list evhttp_bound_socket
}.

(** The module state [InterruptHTTPServer] works on. *)
Record HTTPServer : Type := {
  eventHTTP : option evhttp;
  bound : list evhttp_bound_socket;
  module : HTTPModule CNetAddr CSubNet HTTPRequestHandler
}.

(** [TAILQ_REMOVE(&http->sockets, bound, next)] *)
Fixpoint remove_socket (socket : evhttp_bound_socket)
  (sockets : list evhttp_bound_socket) : list evhttp_bound_socket :=
  match sockets with
  | [] => []
  | s :: rest =>
      if same_socket socket s then rest else s :: remove_socket socket rest
  end.

(** [evhttp_del_accept_socket(http, socket)]: libevent takes the socket
    off the list of [http], closes its listener and frees it, so the
    handle is dead after the call.  A handle that is not on the list of
    [http] (freed by an earlier call, or never bound to [http]) must not
    be passed, and nothing is defined for a call that passes one:
    [None]. *)
Definition evhttp_del_accept_socket (http : evhttp) (socket : evhttp_bound_socket)
  : option evhttp :=
  if existsb (same_socket socket) (accepting http)
  then Some {| gencb := gencb http;
               accepting := remove_socket socket (accepting http) |}
  else None.

(** The loop over [boundSockets] in [InterruptHTTPServer]. *)
Fixpoint del_accept_sockets (sockets : list evhttp_bound_socket) (http : evhttp)
  : option evhttp :=
  match sockets with
  | [] => Some http
  | socket :: rest =>
      http' <- evhttp_del_accept_socket http socket ;;
      del_accept_sockets rest http'
  end.

(** [evhttp_set_gencb(http, cb, NULL)] *)
Definition evhttp_set_gencb (http : evhttp) (cb : GenericCallback) : evhttp :=
  {| gencb := cb; accepting := accepting http |}.

(** [void InterruptHTTPServer()]: [boundSockets] is left as it is. *)
Definition InterruptHTTPServer (srv : HTTPServer) : option HTTPServer :=
  http' <- match eventHTTP srv with
           | Some http =>
               unlistened <- del_accept_sockets (bound srv) http ;;
               Some (Some (evhttp_set_gencb unlistened use_http_reject_request_cb))
           | None => Some None
           end ;;
  Some {| eventHTTP := http';
          bound := bound srv;
          module :=
            match workQueue (module srv) with
            | Some wq => set_workQueue (module srv) (Interrupt wq)
            | None => module srv
            end |}.

(** [static void http_reject_request_cb]:
    [evhttp_send_error(req, HTTP_SERVUNAVAIL, NULL)]. *)
Definition http_reject_request_cb (r : evhttp_request CNetAddr) : list Reply :=
  [(HTTP_SERVUNAVAIL, evhttp_error_body HTTP_SERVUNAVAIL)].

(** A request parsed on a connection: libevent calls the generic
    callback installed at that moment. *)
Definition deliver (srv : HTTPServer) (r : evhttp_request CNetAddr)
  : option (HTTPServer * list Reply) :=
  match eventHTTP srv with
  | None => Some (srv, [])
  | Some http =>
      match gencb http with
      | use_http_request_cb =>
          '(m, out) <- http_request_cb IsValid Match (module srv) r ;;
          Some ({| eventHTTP := eventHTTP srv; bound := bound srv; module := m |}, out)
      | use_http_reject_request_cb => Some (srv, http_reject_request_cb r)
      end
  end.

End Lifecycle.

(** ** The scheduler: queue information, attendance, the destructor *)

Module SchedulerInfo.
Import Scheduler.

Section WithUserFunctions.

Variable UserFn : Type.

(** The key of the last entry, [taskQueue.rbegin()->first]. *)
Fixpoint last_key (q : TaskQueue UserFn) (d : time_point) : time_point :=
  match q with
  | [] => d
  | (t, _) :: rest => last_key rest t
  end.

(** [size_t CScheduler::getQueueInfo(time_point &first, time_point &last)]:
    the value returned and the two references after the call. *)
Definition getQueueInfo (s : CScheduler UserFn) (first last : time_point)
  : size_t * time_point * time_point :=
  let result := Z.of_nat (List.length (taskQueue s)) in
  match taskQueue s with
  | [] => (result, first, last)
  | (t, _) :: _ => (result, t, last_key (taskQueue s) t)
  end.

(** [CScheduler::~CScheduler()]: [assert(nThreadsServicingQueue == 0)]. *)
Definition CScheduler_destroy (s : CScheduler UserFn) : option unit :=
  if nThreadsServicingQueue s =? 0 then Some tt else None.

(** A thread that called [serviceQueue] and has not left it. *)
Definition servicing (ts : ThreadState UserFn) : bool :=
  match ts with
  | Exited => false
  | _ => true
  end.

Definition count_servicing (l : list (ThreadState UserFn)) : Z :=
  Z.of_nat (List.length (filter servicing l)).

Definition one_if (b : bool) : Z := if b then 1 else 0.

(** The counter is the number of threads in the loop. *)
Definition attendance (w : World UserFn) : Prop :=
  nThreadsServicingQueue (sched w) = count_servicing (threads w).

(** The queue in the order of its keys. *)
Definition sorted_by_key (q : TaskQueue UserFn) : Prop :=
  StronglySorted Z.le (map fst q).

End WithUserFunctions.

End SchedulerInfo.

(** ** RPC commands on the list of added nodes ([rpcnet.cpp]) *)

Module RpcNet.
Open Scope string_scope.

(** A JSON value of the univalue library. *)
#[warning="-register-all"] Inductive UniValue : Type :=
| NullUniValue
| VSTR (s : string)
| VNUM (n : Z)
| VBOOL (b : bool)
| VARR (values : list UniValue)
| VOBJ (members : list (string * UniValue)).

(** [get_str()] and [get_bool()]: [None] stands for the
    [std::runtime_error] thrown on a value of another type. *)
Definition get_str (v : UniValue) : option string :=
  match v with
  | VSTR s => Some s
  | _ => None
  end.

Definition get_bool (v : UniValue) : option bool :=
  match v with
  | VBOOL b => Some b
  | _ => None
  end.

(** [find_value(obj, name)]: the member of that name, the null value
    when there is none. *)
Fixpoint find_member (name : string) (members : list (string * UniValue)) : UniValue :=
  match members with
  | [] => NullUniValue
  | (k, v) :: rest => if String.eqb k name then v else find_member name rest
  end.

Definition find_value (obj : UniValue) (name : string) : UniValue :=
  match obj with
  | VOBJ members => find_member name members
  | _ => NullUniValue
  end.

(** [params[i]]: the null value when [i] is out of range. *)
Definition param (params : list UniValue) (i : nat) : UniValue :=
  nth i params NullUniValue.

(** The error codes of [rpcprotocol.h] used below, by name. *)
Inductive RPCErrorCode : Type :=
| RPC_CLIENT_NODE_ALREADY_ADDED
| RPC_CLIENT_NODE_NOT_ADDED.

(** What a command throws: [runtime_error] with its help text,
    [runtime_error] from a value of the wrong type, or a JSON-RPC
    error. *)
Inductive Thrown : Type :=
| usage
| wrong_type
| JSONRPCError (code : RPCErrorCode) (message : string).

Inductive Result (A : Type) : Type :=
| Returned (a : A)
| Threw (e : Thrown).

Arguments Returned {A} a.
Arguments Threw {A} e.

(** [vAddedNodes.erase(it)], [it] being at the first element equal to
    [strNode]. *)
Fixpoint erase_first (strNode : string) (vAddedNodes : list string) : list string :=
  match vAddedNodes with
  | [] => []
  | s :: rest => if String.eqb strNode s then rest else s :: erase_first strNode rest
  end.

(** [UniValue addnode(const UniValue& params, bool fHelp)]: the value
    returned, [vAddedNodes] after the call and the node a connection was
    tried to, if any.  Nothing is changed when the command throws. *)
Definition addnode (vAddedNodes : list string) (params : list UniValue) (fHelp : bool)
  : Result (UniValue * list string * option string) :=
  match (if Nat.eqb (List.length params) 2 then get_str (param params 1)
         else Some "") with
  | None => Threw wrong_type
  | Some strCommand =>
      if fHelp || negb (Nat.eqb (List.length params) 2)
         || (negb (String.eqb strCommand "onetry")
             && negb (String.eqb strCommand "add")
             && negb (String.eqb strCommand "remove"))
      then Threw usage
      else
        match get_str (param params 0) with
        | None => Threw wrong_type
        | Some strNode =>
            if String.eqb strCommand "onetry"
            then Returned (NullUniValue, vAddedNodes, Some strNode)
            else
              let found := existsb (String.eqb strNode) vAddedNodes in
              if String.eqb strCommand "add" then
                if found
                then Threw (JSONRPCError RPC_CLIENT_NODE_ALREADY_ADDED
                              "Error: Node already added")
                else Returned (NullUniValue, (vAddedNodes ++ [strNode])%list, None)
              else if String.eqb strCommand "remove" then
                if negb found
                then Threw (JSONRPCError RPC_CLIENT_NODE_NOT_ADDED
                              "Error: Node has not been added.")
                else Returned (NullUniValue, erase_first strNode vAddedNodes, None)
              else Returned (NullUniValue, vAddedNodes, None)
        end
  end.

Section AddedNodeInfo.

(** [CService] (netbase), [Lookup] with the arguments the command gives
    it ([None] when it returns false), and the connected nodes: the
    address and the inbound flag of each. *)
Variable CService : Type.
Variable CService_eqb : CService -> CService -> bool.
Variable CService_ToString : CService -> string.
Variable Lookup : string -> option (list CService).
Variable vNodes : list (CService * bool).

(** The second loop over [vAddedNodes]: the first element equal to
    [strNode], alone, or nothing. *)
Fixpoint first_equal (strNode : string) (vAddedNodes : list string) : list string :=
  match vAddedNodes with
  | [] => []
  | strAddNode :: rest =>
      if String.eqb strAddNode strNode then [strAddNode]
      else first_equal strNode rest
  end.

(** The nodes with their addresses: a node whose lookup fails is left
    out (the object made for it is never added to the result). *)
Fixpoint resolve (laddedNodes : list string) : list (string * list CService) :=
  match laddedNodes with
  | [] => []
  | strAddNode :: rest =>
      match Lookup strAddNode with
      | Some vservNode => (strAddNode, vservNode) :: resolve rest
      | None => resolve rest
      end
  end.

(** The entry of one address: the object and whether it is connected. *)
Definition address_entry (addrNode : CService) : UniValue * bool :=
  match find (fun pnode => CService_eqb (fst pnode) addrNode) vNodes with
  | Some pnode =>
      (VOBJ [("address", VSTR (CService_ToString addrNode));
             ("connected", VSTR (if snd pnode then "inbound" else "outbound"))],
       true)
  | None =>
      (VOBJ [("address", VSTR (CService_ToString addrNode));
             ("connected", VSTR "false")],
       false)
  end.

Definition node_entry (it : string * list CService) : UniValue :=
  let entries := map address_entry (snd it) in
  VOBJ [("addednode", VSTR (fst it));
        ("connected", VBOOL (existsb snd entries));
        ("addresses", VARR (map fst entries))].

(** The entry of a node when [dns] is false. *)
Definition name_entry (strAddNode : string) : UniValue :=
  VOBJ [("addednode", VSTR strAddNode)].

Definition resolves (strAddNode : string) : bool :=
  match Lookup strAddNode with
  | Some _ => true
  | None => false
  end.

Definition connected_to (addrNode : CService) : bool :=
  existsb (fun pnode => CService_eqb (fst pnode) addrNode) vNodes.

(** [UniValue getaddednodeinfo(const UniValue& params, bool fHelp)] *)
Definition getaddednodeinfo (vAddedNodes : list string) (params : list UniValue)
  (fHelp : bool) : Result UniValue :=
  if fHelp || (List.length params <? 1)%nat || (2 <? List.length params)%nat
  then Threw usage
  else
    match get_bool (param params 0) with
    | None => Threw wrong_type
    | Some fDns =>
        let selected :=
          if Nat.eqb (List.length params) 1 then Returned vAddedNodes
          else
            match get_str (param params 1) with
            | None => Threw wrong_type
            | Some strNode =>
                match first_equal strNode vAddedNodes with
                | [] => Threw (JSONRPCError RPC_CLIENT_NODE_NOT_ADDED
                                 "Error: Node has not been added.")
                | laddedNodes => Returned laddedNodes
                end
            end in
        match selected with
        | Threw e => Threw e
        | Returned laddedNodes =>
            if negb fDns
            then Returned (VARR (map name_entry laddedNodes))
            else Returned (VARR (map node_entry (resolve laddedNodes)))
        end
    end.

End AddedNodeInfo.

End RpcNet.

(** ** More concrete instances *)

Module ConcreteMore.
Open Scope string_scope.

(** Two requests come in, a worker serves the first, the queue is
    interrupted. *)
Definition events : list (ServiceEvent nat) :=
  [Incoming (Concrete.request EVHTTP_REQ_GET "/rest/tx" 1);
   Incoming (Concrete.request EVHTTP_REQ_GET "/" 2);
   WorkerPass nat [(200, "ok")];
   QueueInterrupt nat].

(** Subnets as lists of the addresses in them. *)
Definition parse (s : string) : list nat :=
  if String.eqb s "127.0.0.0/8" then [1%nat]
  else if String.eqb s "::1" then [2%nat]
  else if String.eqb s "10.0.0.0/8" then [10%nat; 11%nat]
  else [].

Definition valid (subnet : list nat) : bool :=
  match subnet with
  | [] => false
  | _ :: _ => true
  end.

(** A server that bound sockets 0 and 1; its [evhttp] object accepts on
    socket 2 as well. *)
Definition server : HTTPServer nat (list nat) nat nat :=
  {| eventHTTP := Some {| gencb := use_http_request_cb;
                          accepting := [0%nat; 1%nat; 2%nat] |};
     bound := [0%nat; 1%nat];
     module := Concrete.module_state 2 |}.

Definition error_body (status : Z) : string := "".

(** Node [a] resolves to addresses 1 and 2, node [b] does not resolve;
    address 2 is connected, outbound. *)
Definition lookup (name : string) : option (list nat) :=
  if String.eqb name "a" then Some [1%nat; 2%nat] else None.

Definition address_name (a : nat) : string :=
  if Nat.eqb a 1 then "10.0.0.1:8333" else "10.0.0.2:8333".

Definition connected : list (nat * bool) := [(2%nat, false)].

End ConcreteMore.

Module ConcreteScheduler.
Import Scheduler.
Open Scope string_scope.

(** Two tasks are scheduled, the later one first; a thread enters and
    takes the earlier one when it is due. *)
Definition out_of_order : list (Event string) :=
  [DoSchedule "B" 5000; DoSchedule "A" 1000; Enter; Tick 1000; Timeout 0].

(** What follows a [stop(false)]: tasks are still accepted and a thread
    may still enter. *)
Definition after_stop : list (Event string) :=
  [DoSchedule "B" 5000; DoSchedule "A" 1000; Enter; Tick 1000].

(** A scheduler stopped for draining, its queue empty, one thread
    waiting for work. *)
Definition draining : World string :=
  {| sched := {| taskQueue := []; nThreadsServicingQueue := 1;
                 stopRequested := false; stopWhenEmpty := true |};
     now := 0; threads := [WaitEmpty]; next_id := 0; trace := [] |}.

End ConcreteScheduler.

(** * Properties *)

(** ** Facts about [std::string] operations *)

Module StdStringFacts.
Import StdString.
Open Scope string_scope.

Lemma substring_0_append (p s : string) :
  substring 0 (String.length p) (p ++ s) = p.
Proof.
  induction p as [|c p IH]; simpl.
  - destruct s; reflexivity.
  - now rewrite IH.
Qed.

Lemma substring_skip_append (p s : string) :
  substring (String.length p) (String.length (p ++ s) - String.length p) (p ++ s) = s.
Proof.
  induction p as [|c p IH]; simpl.
  - rewrite Nat.sub_0_r. induction s as [|d s IHs]; simpl; [reflexivity|].
    now rewrite IHs.
  - exact IH.
Qed.

(** A string whose first [length p] characters are [p] is [p] followed
    by the rest. *)
Lemma substring_0_split (p u : string) :
  substring 0 (String.length p) u = p -> exists sfx, u = p ++ sfx.
Proof.
  revert u; induction p as [|c p IH]; intros u H.
  - exists u; reflexivity.
  - destruct u as [|d u]; simpl in H; [discriminate|].
    injection H as -> H. destruct (IH _ H) as [sfx ->].
    exists sfx; reflexivity.
Qed.

Lemma append_inv_head (p a b : string) : p ++ a = p ++ b -> a = b.
Proof.
  induction p as [|c p IH]; simpl; intros H; [exact H|].
  injection H as H. auto.
Qed.

Lemma length_append (a b : string) :
  String.length (a ++ b) = (String.length a + String.length b)%nat.
Proof. induction a as [|c a IH]; simpl; [reflexivity | now rewrite IH]. Qed.

Lemma append_nil_r (a : string) : a ++ "" = a.
Proof. induction a as [|c a IH]; simpl; [reflexivity | now rewrite IH]. Qed.

Lemma substr_0_prefix (u p : string) :
  substr u 0 (Some (size p)) = Some (substring 0 (String.length p) u).
Proof. reflexivity. Qed.

(** [u.substr(0, p.size()) == p] says that [u] begins with [p]. *)
Lemma substr_eqb_begins (u p : string) :
  (exists h, substr u 0 (Some (size p)) = Some h /\ String.eqb h p = true)
  <-> exists sfx, u = p ++ sfx.
Proof.
  split.
  - intros (h & Hh & He). rewrite substr_0_prefix in Hh. injection Hh as <-.
    apply String.eqb_eq in He. now apply substring_0_split.
  - intros (sfx & ->). eexists; split; [apply substr_0_prefix|].
    rewrite substring_0_append. apply String.eqb_refl.
Qed.

(** [(p ++ sfx).substr(p.size())] is [sfx] and does not throw. *)
Lemma substr_rest (p sfx : string) :
  substr (p ++ sfx) (size p) None = Some sfx.
Proof.
  unfold substr, size.
  assert (H : (String.length (p ++ sfx) <? String.length p)%nat = false).
  { apply Nat.ltb_ge. rewrite length_append. lia. }
  rewrite H, substring_skip_append. reflexivity.
Qed.

End StdStringFacts.

(** ** The request object: one reply per lifetime *)

Section RequestFacts.

Variable CNetAddr : Type.
Implicit Types (h : HTTPRequest CNetAddr) (r : evhttp_request CNetAddr).

Lemma WriteReply_fresh r nStatus strReply :
  WriteReply (HTTPRequest_new r) nStatus strReply
  = Some ({| req := None; replySent := true |},
          (nStatus, (ev_output_buffer r ++ strReply)%string)).
Proof. reflexivity. Qed.

(** The assertion [!replySent] stops a second reply. *)
Lemma WriteReply_after_reply h nStatus strReply :
  replySent h = true -> WriteReply h nStatus strReply = None.
Proof. intros H. unfold WriteReply. now rewrite H. Qed.

Lemma WriteReply_marks h nStatus strReply h' rep :
  WriteReply h nStatus strReply = Some (h', rep) -> replySent h' = true.
Proof.
  unfold WriteReply.
  destruct (negb (replySent h)), (req h); intros H; try discriminate.
  now injection H as <- _.
Qed.

Lemma reply_and_drop_fresh r nStatus strReply :
  reply_and_drop (HTTPRequest_new r) nStatus strReply
  = Some [(nStatus, (ev_output_buffer r ++ strReply)%string)].
Proof. reflexivity. Qed.

(** C1. Over the life of a request object exactly one reply is posted:
    with no [WriteReply] call the destructor posts 500 "Unhandled
    request"; with one call that reply is the only one and the
    destructor adds nothing; [WriteReply] sets [replySent], a second call
    fails the assertion [!replySent], so no life of a request contains
    two replies. *)
Theorem request_exactly_one_reply :
  forall (r : evhttp_request CNetAddr) (calls : list (Z * string)),
    lifetime r calls =
      match calls with
      | [] => Some [(HTTP_INTERNAL,
                     (ev_output_buffer r ++ "Unhandled request")%string)]
      | [(nStatus, strReply)] =>
          Some [(nStatus, (ev_output_buffer r ++ strReply)%string)]
      | _ :: _ :: _ => None
      end
    /\ (forall out, lifetime r calls = Some out -> List.length out = 1%nat)
    /\ (forall h nStatus strReply h' rep,
           WriteReply h nStatus strReply = Some (h', rep) ->
           replySent h' = true
           /\ forall nStatus' strReply', WriteReply h' nStatus' strReply' = None).
Proof.
  intros r calls.
  assert (E : lifetime r calls =
      match calls with
      | [] => Some [(HTTP_INTERNAL,
                     (ev_output_buffer r ++ "Unhandled request")%string)]
      | [(nStatus, strReply)] =>
          Some [(nStatus, (ev_output_buffer r ++ strReply)%string)]
      | _ :: _ :: _ => None
      end).
  { destruct calls as [|[s1 b1] [|[s2 b2] rest]]; reflexivity. }
  split; [exact E|split].
  - intros out. rewrite E.
    destruct calls as [|[s1 b1] [|[s2 b2] rest]]; intros H;
      try discriminate; now injection H as <-.
  - intros h nStatus strReply h' rep H.
    pose proof (WriteReply_marks _ _ _ H) as Hm.
    split; [exact Hm|]. intros. now apply WriteReply_after_reply.
Qed.

End RequestFacts.

(** ** The work queue *)

Section WorkQueueFacts.

Variable WorkItem : Type.
Implicit Types (q : WorkQueue WorkItem) (item : WorkItem).

Lemma Enqueue_below q item :
  Depth q < maxDepth q -> Enqueue q item = (true, push_back q item).
Proof.
  intros H. unfold Enqueue, Depth in *.
  destruct (Z.geb_spec (queue_size q) (maxDepth q)); [lia | reflexivity].
Qed.

Lemma Enqueue_full q item :
  maxDepth q <= Depth q -> Enqueue q item = (false, q).
Proof.
  intros H. unfold Enqueue, Depth in *.
  destruct (Z.geb_spec (queue_size q) (maxDepth q)); [reflexivity | lia].
Qed.

Lemma Depth_push_back q item : Depth (push_back q item) = Depth q + 1.
Proof.
  unfold Depth, queue_size, push_back; simpl.
  rewrite length_app; simpl. lia.
Qed.

Lemma Enqueue_true_iff q item :
  fst (Enqueue q item) = true <-> Depth q < maxDepth q.
Proof.
  destruct (Z.lt_ge_cases (Depth q) (maxDepth q)) as [H|H].
  - rewrite (Enqueue_below _ _ H). simpl. tauto.
  - rewrite (Enqueue_full _ _ H). simpl. split; [discriminate | lia].
Qed.

Lemma apply_op_maxDepth q op : maxDepth (apply_op q op) = maxDepth q.
Proof.
  destruct op; simpl; try reflexivity.
  - unfold Enqueue. destruct (queue_size q >=? maxDepth q); reflexivity.
  - unfold Run_locked. destruct (running q), (queue q); reflexivity.
Qed.

(** Every operation keeps the depth within the capacity. *)
Lemma apply_op_invariant q op :
  depth_invariant q -> depth_invariant (apply_op q op).
Proof.
  unfold depth_invariant. intros H. destruct op; simpl; try exact H.
  - destruct (Z.lt_ge_cases (Depth q) (maxDepth q)) as [Hlt|Hge].
    + rewrite (Enqueue_below _ _ Hlt). simpl.
      rewrite Depth_push_back. unfold push_back; simpl. lia.
    + rewrite (Enqueue_full _ _ Hge). exact H.
  - unfold Run_locked. destruct (running q); [|exact H].
    destruct (queue q) as [|i rest] eqn:E; [exact H|].
    unfold Depth, queue_size in *; rewrite E in H; simpl in *. lia.
Qed.

Lemma run_ops_invariant ops : forall q,
  depth_invariant q -> depth_invariant (run_ops q ops).
Proof.
  induction ops as [|op ops IH]; intros q H; simpl; [exact H|].
  apply IH, apply_op_invariant, H.
Qed.

Lemma WorkQueue_new_invariant (depth : size_t) :
  0 <= depth -> depth_invariant (WorkQueue_new WorkItem depth).
Proof. intros H. unfold depth_invariant, Depth, queue_size; simpl. lia. Qed.

(** C2 (as the code has it). [Enqueue] appends and returns true exactly
    when [depth < capacity], whether or not the queue is running:
    [Interrupt] only clears [running], leaves the queue and the capacity
    as they are, and [Enqueue] gives the same answer after it as before
    it; after [Interrupt], [Enqueue] returns false only at capacity.
    Below capacity the item is put behind the items queued, before
    [Interrupt] and after it. *)
Theorem enqueue_decided_by_depth_alone :
  forall q item,
    (fst (Enqueue q item) = true <-> Depth q < maxDepth q)
    /\ (Depth q < maxDepth q -> Enqueue q item = (true, push_back q item))
    /\ (maxDepth q <= Depth q -> Enqueue q item = (false, q))
    /\ running (Interrupt q) = false
    /\ queue (Interrupt q) = queue q
    /\ maxDepth (Interrupt q) = maxDepth q
    /\ fst (Enqueue (Interrupt q) item) = fst (Enqueue q item)
    /\ (fst (Enqueue (Interrupt q) item) = false <-> maxDepth q <= Depth q)
    /\ (Depth q < maxDepth q ->
        queue (snd (Enqueue q item)) = queue q ++ [item]
        /\ queue (snd (Enqueue (Interrupt q) item)) = queue q ++ [item]).
Proof.
  intros q item.
  assert (Hsame : fst (Enqueue (Interrupt q) item) = fst (Enqueue q item)).
  { unfold Enqueue, queue_size; simpl.
    destruct (Z.of_nat (Datatypes.length (queue q)) >=? maxDepth q); reflexivity. }
  assert (Hqueue : Depth q < maxDepth q ->
                   queue (snd (Enqueue q item)) = queue q ++ [item]
                   /\ queue (snd (Enqueue (Interrupt q) item)) = queue q ++ [item]).
  { intros H. rewrite (Enqueue_below _ _ H).
    rewrite (@Enqueue_below (Interrupt q) item) by exact H. split; reflexivity. }
  repeat split; try reflexivity; try exact Hsame; try (now apply Hqueue).
  - apply Enqueue_true_iff.
  - apply Enqueue_true_iff.
  - apply Enqueue_below.
  - apply Enqueue_full.
  - rewrite Hsame. intros H.
    destruct (Z.lt_ge_cases (Depth q) (maxDepth q)) as [Hlt|Hge]; [|exact Hge].
    apply (Enqueue_true_iff q item) in Hlt. congruence.
  - rewrite Hsame. intros H. now rewrite (Enqueue_full _ _ H).
Qed.

(** C5. [0 <= depth <= capacity] holds in every state reached from a new
    queue by any sequence of operations; an [Enqueue] at
    [depth = capacity - 1] succeeds and leaves the queue at capacity; an
    [Enqueue] at [depth = capacity] returns false and leaves the queue as
    it was. *)
Theorem depth_within_capacity :
  (forall (capacity : size_t) (ops : list (QueueOp WorkItem)),
      0 <= capacity ->
      depth_invariant (run_ops (WorkQueue_new WorkItem capacity) ops))
  /\ (forall q item,
         Depth q = maxDepth q - 1 ->
         Enqueue q item = (true, push_back q item)
         /\ Depth (push_back q item) = maxDepth (push_back q item))
  /\ (forall q item,
         Depth q = maxDepth q ->
         Enqueue q item = (false, q))
  /\ (forall q item item',
         Depth q = maxDepth q - 1 ->
         fst (Enqueue (snd (Enqueue q item)) item') = false).
Proof.
  split; [|split; [|split]].
  - intros capacity ops H.
    apply run_ops_invariant, WorkQueue_new_invariant, H.
  - intros q item H. split.
    + apply Enqueue_below. lia.
    + rewrite Depth_push_back. unfold push_back; simpl. lia.
  - intros q item H. apply Enqueue_full. lia.
  - intros q item item' H.
    rewrite (Enqueue_below q item) by lia. simpl.
    rewrite Enqueue_full; [reflexivity|].
    rewrite Depth_push_back. unfold push_back; simpl. lia.
Qed.

End WorkQueueFacts.

(** After [Interrupt] a queue of capacity 1 still takes an item. *)
Lemma enqueue_after_interrupt_accepted :
  running (Interrupt (WorkQueue_new nat 1)) = false
  /\ Enqueue (Interrupt (WorkQueue_new nat 1)) 7%nat
     = (true, {| queue := [7%nat]; running := false;
                 maxDepth := 1; numThreads := 0 |}).
Proof. split; reflexivity. Qed.

Lemma enqueue_decided_by_depth_alone_witness :
  Enqueue (WorkQueue_new nat 1) 7%nat
  = (true, push_back (WorkQueue_new nat 1) 7%nat).
Proof.
  apply (enqueue_decided_by_depth_alone (WorkQueue_new nat 1) 7%nat).
  vm_compute. reflexivity.
Defined.

Lemma depth_within_capacity_witness :
  depth_invariant
    (run_ops (WorkQueue_new nat 2)
       [OpEnqueue 1%nat; OpEnqueue 2%nat; OpEnqueue 3%nat; OpInterrupt nat;
        OpEnqueue 4%nat; OpRun nat])
  /\ Enqueue (push_back (WorkQueue_new nat 2) 1%nat) 2%nat
     = (true, push_back (push_back (WorkQueue_new nat 2) 1%nat) 2%nat).
Proof.
  split.
  - apply (proj1 (depth_within_capacity nat)). lia.
  - apply (proj1 (proj2 (depth_within_capacity nat))). reflexivity.
Defined.

(** ** The ACL, the registry and the request callback *)

Section FrontEndFacts.

Variable CNetAddr : Type.
Variable CSubNet : Type.
Variable IsValid : CNetAddr -> bool.
Variable Match : CSubNet -> CNetAddr -> bool.
Variable HTTPRequestHandler : Type.

Abbreviation PathHandler := (HTTPPathHandler HTTPRequestHandler).
Abbreviation ModuleState := (HTTPModule CNetAddr CSubNet HTTPRequestHandler).
Abbreviation callback := (@http_request_cb CNetAddr CSubNet IsValid Match HTTPRequestHandler).

Lemma handler_match_spec uri (i : PathHandler) :
  exists m, handler_match uri i = Some m /\ (m = true <-> spec_matches uri i).
Proof.
  unfold handler_match, spec_matches. destruct (exactMatch i).
  - eexists; split; [reflexivity|]. apply String.eqb_eq.
  - rewrite StdStringFacts.substr_0_prefix. simpl.
    eexists; split; [reflexivity|]. rewrite String.eqb_eq. split.
    + apply StdStringFacts.substring_0_split.
    + intros [sfx ->]. apply StdStringFacts.substring_0_append.
Qed.

(** What is left of a matching URI after the record's prefix. *)
Lemma matching_path uri (i : PathHandler) :
  spec_matches uri i ->
  exists p, StdString.substr uri (StdString.size (prefix i)) None = Some p
            /\ uri = (prefix i ++ p)%string.
Proof.
  unfold spec_matches. destruct (exactMatch i).
  - intros ->. exists ""%string.
    rewrite <- (StdStringFacts.append_nil_r (prefix i)) at 1.
    rewrite StdStringFacts.substr_rest.
    now rewrite StdStringFacts.append_nil_r.
  - intros [sfx ->]. exists sfx. now rewrite StdStringFacts.substr_rest.
Qed.

Lemma find_handler_miss uri (hs : list PathHandler) :
  Forall (fun j => ~ spec_matches uri j) hs -> find_handler uri hs = Some None.
Proof.
  induction 1 as [|j hs Hj _ IH]; simpl; [reflexivity|].
  destruct (handler_match_spec uri j) as (m & -> & Hm). simpl.
  destruct m; [exfalso; apply Hj, Hm; reflexivity | exact IH].
Qed.

Lemma find_handler_hit uri (before after : list PathHandler) i p :
  Forall (fun j => ~ spec_matches uri j) before ->
  spec_matches uri i ->
  uri = (prefix i ++ p)%string ->
  find_handler uri (before ++ i :: after) = Some (Some (i, p)).
Proof.
  intros Hb Hi Hp. induction Hb as [|j before Hj _ IH]; simpl.
  - destruct (handler_match_spec uri i) as (m & -> & Hm). simpl.
    destruct m; [|apply Hm in Hi; discriminate].
    rewrite Hp at 1. now rewrite StdStringFacts.substr_rest.
  - destruct (handler_match_spec uri j) as (m & -> & Hm). simpl.
    destruct m; [exfalso; apply Hj, Hm; reflexivity | exact IH].
Qed.

(** The loop always ends in one of the two ways above. *)
Lemma find_handler_cases uri (hs : list PathHandler) :
  (find_handler uri hs = Some None
   /\ Forall (fun j => ~ spec_matches uri j) hs)
  \/ (exists before i after p,
         hs = before ++ i :: after
         /\ Forall (fun j => ~ spec_matches uri j) before
         /\ spec_matches uri i
         /\ uri = (prefix i ++ p)%string
         /\ find_handler uri hs = Some (Some (i, p))).
Proof.
  induction hs as [|j hs IH].
  - left. split; [reflexivity | constructor].
  - destruct (handler_match_spec uri j) as (m & Hmatch & Hm). destruct m.
    + right. assert (Hj : spec_matches uri j) by now apply Hm.
      destruct (matching_path _ _ Hj) as (p & Hp & Hu).
      exists [], j, hs, p. repeat split; auto.
      simpl. rewrite Hmatch. simpl. now rewrite Hp.
    + assert (Hj : ~ spec_matches uri j).
      { intros H. apply Hm in H. discriminate. }
      destruct IH as [[Hn Hall] | (before & i & after & p & -> & Hb & Hi & Hu & Hf)].
      * left. split; [|now constructor].
        simpl. rewrite Hmatch. simpl. exact Hn.
      * right. exists (j :: before), i, after, p. repeat split; auto.
        simpl. rewrite Hmatch. simpl. exact Hf.
Qed.

(** C6. The lookup loop returns the first record, in insertion order,
    that matches the URI by the spec's rule, together with the rest of
    the URI after the record's prefix; it reports a miss exactly when no
    record matches; it never throws.  So of two registered records that
    match, the one registered first is returned. *)
Theorem lookup_returns_first_match :
  forall (uri : string) (hs : list PathHandler),
    (forall i p,
        find_handler uri hs = Some (Some (i, p))
        <-> exists before after,
            hs = before ++ i :: after
            /\ Forall (fun j => ~ spec_matches uri j) before
            /\ spec_matches uri i
            /\ uri = (prefix i ++ p)%string)
    /\ (find_handler uri hs = Some None
        <-> Forall (fun j => ~ spec_matches uri j) hs)
    /\ find_handler uri hs <> None
    /\ (forall before first between second after,
           hs = before ++ first :: between ++ second :: after ->
           Forall (fun j => ~ spec_matches uri j) before ->
           spec_matches uri first ->
           spec_matches uri second ->
           exists p, find_handler uri hs = Some (Some (first, p))
                     /\ uri = (prefix first ++ p)%string).
Proof.
  intros uri hs. split; [|split; [|split]].
  - intros i p. split.
    + intros H.
      destruct (find_handler_cases uri hs)
        as [[Hn _] | (before & i' & after & p' & E & Hb & Hi & Hu & Hf)];
        [congruence|].
      rewrite Hf in H. injection H as -> ->. now exists before, after.
    + intros (before & after & -> & Hb & Hi & Hu).
      now apply find_handler_hit.
  - split; [|apply find_handler_miss].
    intros H.
    destruct (find_handler_cases uri hs)
      as [[_ Hall] | (before & i' & after & p' & E & Hb & Hi & Hu & Hf)];
      [exact Hall | congruence].
  - destruct (find_handler_cases uri hs)
      as [[Hn _] | (before & i' & after & p' & E & Hb & Hi & Hu & Hf)];
      congruence.
  - intros before first between second after -> Hb H1 _.
    destruct (matching_path _ _ H1) as (p & _ & Hu).
    exists p. split; [|exact Hu]. now apply find_handler_hit.
Qed.

(** *** The callback's gates *)

Implicit Types (st : ModuleState) (r : evhttp_request CNetAddr).

Lemma GetRequestMethod_unknown r :
  GetRequestMethod (HTTPRequest_new r) = Some UNKNOWN <-> known_method (ev_command r) = false.
Proof.
  unfold GetRequestMethod; simpl.
  destruct (ev_command r); simpl; split; intros H; congruence.
Qed.

Lemma callback_forbidden st r :
  ClientAllowed IsValid Match (rpc_allow_subnets st) (ev_peer r) = false ->
  callback st r = Some (st, [(HTTP_FORBIDDEN, ev_output_buffer r ++ "")%string]).
Proof.
  intros H. unfold http_request_cb; simpl. rewrite H. reflexivity.
Qed.

Lemma callback_bad_method st r :
  ClientAllowed IsValid Match (rpc_allow_subnets st) (ev_peer r) = true ->
  known_method (ev_command r) = false ->
  callback st r = Some (st, [(HTTP_BADMETHOD, ev_output_buffer r ++ "")%string]).
Proof.
  intros Ha Hm. unfold http_request_cb; simpl. rewrite Ha. simpl.
  unfold GetRequestMethod; simpl.
  destruct (ev_command r); try discriminate; reflexivity.
Qed.

(** Past the first two gates the callback goes by the lookup alone. *)
Lemma callback_past_gates st r :
  ClientAllowed IsValid Match (rpc_allow_subnets st) (ev_peer r) = true ->
  known_method (ev_command r) = true ->
  callback st r =
    (found <- find_handler (ev_uri r) (pathHandlers st) ;;
     match found with
     | Some (i, p) =>
         let item := {| item_req := HTTPRequest_new r; path := p; func := handler i |} in
         wq <- workQueue st ;;
         let (ok, wq') := Enqueue wq item in
         if ok then Some (set_workQueue st wq', [])
         else Some (set_workQueue st wq',
                    [(HTTP_INTERNAL,
                      ev_output_buffer r ++ "Work queue depth exceeded")%string])
     | None => Some (st, [(HTTP_NOTFOUND, ev_output_buffer r ++ "")%string])
     end).
Proof.
  intros Ha Hm. unfold http_request_cb; simpl. rewrite Ha. simpl.
  unfold GetRequestMethod; simpl.
  destruct (ev_command r); try discriminate; simpl;
    (destruct (find_handler (ev_uri r) (pathHandlers st)) as [[[i p]|]|];
     [|reflexivity|reflexivity]; simpl;
     destruct (workQueue st) as [wq|]; [|reflexivity]; simpl;
     destruct (Enqueue wq _) as [[|] wq']; reflexivity).
Qed.

Lemma set_workQueue_same st wq : workQueue st = Some wq -> set_workQueue st wq = st.
Proof. destruct st; simpl; intros ->; reflexivity. Qed.

(** C3. The gates of the generic request callback, in order: a peer the
    ACL does not allow gets 403 whatever the method, the registry and the
    queue are, and nothing is queued; an allowed peer with a method other
    than GET, POST, HEAD, PUT gets 405; otherwise, when no registered
    record matches the URI, 404; otherwise the work item made of the
    request, the path after the prefix and the first matching record's
    handler is offered to the queue: accepted, it is the last item of
    the module's work queue, behind the items that were queued, and no
    reply is posted; refused, the reply is 500 "Work queue depth
    exceeded" and the queue is as it was. *)
Theorem request_callback_gates :
  forall st r,
    (ClientAllowed IsValid Match (rpc_allow_subnets st) (ev_peer r) = false ->
     callback st r = Some (st, [(HTTP_FORBIDDEN, ev_output_buffer r ++ "")%string]))
    /\ (ClientAllowed IsValid Match (rpc_allow_subnets st) (ev_peer r) = true ->
        known_method (ev_command r) = false ->
        callback st r = Some (st, [(HTTP_BADMETHOD, ev_output_buffer r ++ "")%string]))
    /\ (ClientAllowed IsValid Match (rpc_allow_subnets st) (ev_peer r) = true ->
        known_method (ev_command r) = true ->
        Forall (fun j => ~ spec_matches (ev_uri r) j) (pathHandlers st) ->
        callback st r = Some (st, [(HTTP_NOTFOUND, ev_output_buffer r ++ "")%string]))
    /\ (forall before i after p wq,
           ClientAllowed IsValid Match (rpc_allow_subnets st) (ev_peer r) = true ->
           known_method (ev_command r) = true ->
           pathHandlers st = before ++ i :: after ->
           Forall (fun j => ~ spec_matches (ev_uri r) j) before ->
           spec_matches (ev_uri r) i ->
           ev_uri r = (prefix i ++ p)%string ->
           workQueue st = Some wq ->
           let item := {| item_req := HTTPRequest_new r; path := p; func := handler i |} in
           (fst (Enqueue wq item) = true ->
            callback st r = Some (set_workQueue st (push_back wq item), [])
            /\ exists st' wq',
                callback st r = Some (st', [])
                /\ workQueue st' = Some wq'
                /\ queue wq' = queue wq ++ [item]
                /\ running wq' = running wq
                /\ maxDepth wq' = maxDepth wq
                /\ numThreads wq' = numThreads wq
                /\ rpc_allow_subnets st' = rpc_allow_subnets st
                /\ pathHandlers st' = pathHandlers st)
           /\ (fst (Enqueue wq item) = false ->
               callback st r =
                 Some (st, [(HTTP_INTERNAL,
                             ev_output_buffer r ++ "Work queue depth exceeded")%string]))).
Proof.
  intros st r. split; [|split; [|split]].
  - apply callback_forbidden.
  - apply callback_bad_method.
  - intros Ha Hm Hmiss. rewrite (callback_past_gates _ _ Ha Hm).
    now rewrite find_handler_miss by exact Hmiss.
  - intros before i after p wq Ha Hm Hhs Hb Hi Hu Hwq item.
    rewrite (callback_past_gates _ _ Ha Hm), Hhs.
    rewrite (@find_handler_hit _ _ after _ p Hb Hi Hu). simpl. rewrite Hwq. simpl.
    fold item. split; intros Hok.
    + pose proof (proj1 (Enqueue_true_iff wq item) Hok) as Hlt.
      rewrite (Enqueue_below _ _ Hlt). split; [reflexivity|].
      exists (set_workQueue st (push_back wq item)), (push_back wq item).
      repeat split; try reflexivity. simpl. exact Hhs.
    + assert (Hge : maxDepth wq <= Depth wq).
      { destruct (Z.lt_ge_cases (Depth wq) (maxDepth wq)) as [Hlt|Hge]; [|exact Hge].
        apply (Enqueue_true_iff wq item) in Hlt. congruence. }
      rewrite (Enqueue_full _ _ Hge). now rewrite set_workQueue_same.
Qed.

(** *** The ACL *)

Lemma ClientAllowed_invalid (subnets : list CSubNet) (netaddr : CNetAddr) :
  IsValid netaddr = false -> ClientAllowed IsValid Match subnets netaddr = false.
Proof. intros H. unfold ClientAllowed. now rewrite H. Qed.

End FrontEndFacts.

(** C10. A peer address that is not valid is refused by [ClientAllowed]
    whatever the subnet list holds and whatever [CSubNet::Match] would
    answer, and the callback answers such a peer with 403 and queues
    nothing. *)
Theorem invalid_peer_always_denied :
  forall (CNetAddr CSubNet HTTPRequestHandler : Type)
         (IsValid : CNetAddr -> bool) (netaddr : CNetAddr),
    IsValid netaddr = false ->
    (forall (Match : CSubNet -> CNetAddr -> bool) (subnets : list CSubNet),
        ClientAllowed IsValid Match subnets netaddr = false)
    /\ (forall (Match : CSubNet -> CNetAddr -> bool)
               (st : HTTPModule CNetAddr CSubNet HTTPRequestHandler)
               (r : evhttp_request CNetAddr),
           ev_peer r = netaddr ->
           http_request_cb IsValid Match st r
           = Some (st, [(HTTP_FORBIDDEN, ev_output_buffer r ++ "")%string])).
Proof.
  intros CNetAddr CSubNet H IsValid netaddr Hinv. split.
  - intros Match subnets. now apply ClientAllowed_invalid.
  - intros Match st r Hr. apply callback_forbidden.
    rewrite Hr. now apply ClientAllowed_invalid.
Qed.

(** ** Registering and unregistering handlers *)

Section RegistryFacts.

Variable HTTPRequestHandler : Type.
Implicit Types (hs : list (HTTPPathHandler HTTPRequestHandler)).

Lemma same_key_test pfx exact (i : HTTPPathHandler HTTPRequestHandler) :
  String.eqb (prefix i) pfx && Bool.eqb (exactMatch i) exact = true
  <-> same_key pfx exact i.
Proof.
  unfold same_key. rewrite andb_true_iff, String.eqb_eq, Bool.eqb_true_iff.
  tauto.
Qed.

(** No record with that key: nothing changes. *)
Lemma Unregister_absent hs pfx exact :
  Forall (fun i => ~ same_key pfx exact i) hs ->
  UnregisterHTTPHandler hs pfx exact = hs.
Proof.
  induction 1 as [|i hs Hi _ IH]; simpl; [reflexivity|].
  destruct (String.eqb (prefix i) pfx && Bool.eqb (exactMatch i) exact) eqn:E.
  - apply same_key_test in E. contradiction.
  - now rewrite IH.
Qed.

(** Otherwise the first record with that key goes, and only that one. *)
Lemma Unregister_first hs1 i hs2 pfx exact :
  Forall (fun j => ~ same_key pfx exact j) hs1 ->
  same_key pfx exact i ->
  UnregisterHTTPHandler (hs1 ++ i :: hs2) pfx exact = hs1 ++ hs2.
Proof.
  intros H1 Hi. induction H1 as [|j hs1 Hj _ IH]; simpl.
  - apply same_key_test in Hi. now rewrite Hi.
  - destruct (String.eqb (prefix j) pfx && Bool.eqb (exactMatch j) exact) eqn:E.
    + apply same_key_test in E. contradiction.
    + now rewrite IH.
Qed.

(** C7 (as the code has it). When no record with the key [(p, e)] is
    registered, [register(p, e, h)] followed by [unregister(p, e)] gives
    back the very same registry, so the lookup of every URI is as it was
    before.  [unregister] removes the first record with the key and is a
    no-op when there is none. *)
Theorem register_then_unregister_restores :
  forall hs (p : string) (e : bool) (h : HTTPRequestHandler),
    Forall (fun i => ~ same_key p e i) hs ->
    UnregisterHTTPHandler (RegisterHTTPHandler hs p e h) p e = hs
    /\ (forall uri,
           find_handler uri (UnregisterHTTPHandler (RegisterHTTPHandler hs p e h) p e)
           = find_handler uri hs)
    /\ UnregisterHTTPHandler hs p e = hs.
Proof.
  intros hs p e h Habsent.
  assert (E : UnregisterHTTPHandler (RegisterHTTPHandler hs p e h) p e = hs).
  { unfold RegisterHTTPHandler.
    rewrite (@Unregister_first hs _ [] p e Habsent).
    - apply app_nil_r.
    - split; reflexivity. }
  split; [exact E|split].
  - intros uri. now rewrite E.
  - now apply Unregister_absent.
Qed.

End RegistryFacts.

(** ** The front end on concrete data *)

Module ConcreteFacts.
Import Concrete.
Open Scope string_scope.

Example lookup_prefix :
  find_handler "/rest/tx/1" [rest_handler; root_handler; any_handler]
  = Some (Some (rest_handler, "tx/1")).
Proof. reflexivity. Qed.

Example lookup_exact :
  find_handler "/" [rest_handler; root_handler; any_handler]
  = Some (Some (root_handler, "")).
Proof. reflexivity. Qed.

Example lookup_exact_longer_uri :
  find_handler "/x" [rest_handler; root_handler] = Some None.
Proof. reflexivity. Qed.

Example callback_403 :
  http_request_cb IsValid Match (module_state 1) (request EVHTTP_REQ_GET "/" 5)
  = Some (module_state 1, [(403, "")]).
Proof. reflexivity. Qed.

Example callback_405 :
  http_request_cb IsValid Match (module_state 1) (request EVHTTP_REQ_OPTIONS "/" 1)
  = Some (module_state 1, [(405, "")]).
Proof. reflexivity. Qed.

Example callback_404 :
  http_request_cb IsValid Match (module_state 1) (request EVHTTP_REQ_GET "/x" 1)
  = Some (module_state 1, [(404, "")]).
Proof. reflexivity. Qed.

Example callback_500 :
  http_request_cb IsValid Match (module_state 0) (request EVHTTP_REQ_GET "/" 1)
  = Some (module_state 0, [(500, "Work queue depth exceeded")]).
Proof. reflexivity. Qed.

End ConcreteFacts.


(** With a record for the key already registered, the pair of calls
    removes the old record and leaves the new one: the URI that went to
    handler 3 now goes to handler 4. *)
Lemma register_then_unregister_changes_lookup :
  find_handler "/"%string [Concrete.any_handler]
  = Some (Some (Concrete.any_handler, ""%string))
  /\ find_handler "/"%string
       (UnregisterHTTPHandler
          (RegisterHTTPHandler [Concrete.any_handler] "/"%string false 4%nat)
          "/"%string false)
     = Some (Some ({| prefix := "/"%string; exactMatch := false; handler := 4%nat |},
                   ""%string)).
Proof. split; reflexivity. Qed.

Lemma register_then_unregister_restores_witness :
  UnregisterHTTPHandler
    (RegisterHTTPHandler [Concrete.rest_handler] "/"%string true 2%nat)
    "/"%string true
  = [Concrete.rest_handler].
Proof.
  apply (@register_then_unregister_restores nat [Concrete.rest_handler]
           "/"%string true 2%nat).
  constructor; [|constructor].
  unfold same_key; simpl. intros [H _]. discriminate.
Defined.

Lemma invalid_peer_always_denied_witness :
  Concrete.IsValid 0 = false
  /\ http_request_cb Concrete.IsValid Concrete.Match
       {| rpc_allow_subnets := [[0%nat]];
          workQueue := None;
          pathHandlers := [Concrete.root_handler] |}
       (Concrete.request EVHTTP_REQ_GET "/" 0)
     = Some ({| rpc_allow_subnets := [[0%nat]];
                workQueue := None;
                pathHandlers := [Concrete.root_handler] |},
             [(HTTP_FORBIDDEN, ""%string)]).
Proof.
  split; [reflexivity|].
  apply (proj2 (@invalid_peer_always_denied nat (list nat) nat
                  Concrete.IsValid 0%nat eq_refl)).
  reflexivity.
Defined.

Lemma request_callback_gates_witness :
  http_request_cb Concrete.IsValid Concrete.Match (Concrete.module_state 1)
    (Concrete.request EVHTTP_REQ_PUT "/" 9)
  = Some (Concrete.module_state 1, [(HTTP_FORBIDDEN, ""%string)])
  /\ (exists st' wq',
         http_request_cb Concrete.IsValid Concrete.Match (Concrete.module_state 1)
           (Concrete.request EVHTTP_REQ_GET "/rest/tx" 1)
         = Some (st', [])
         /\ workQueue st' = Some wq'
         /\ queue wq'
            = [{| item_req := HTTPRequest_new
                                (Concrete.request EVHTTP_REQ_GET "/rest/tx" 1);
                  path := "tx"%string; func := 1%nat |}])
  /\ http_request_cb Concrete.IsValid Concrete.Match (Concrete.module_state 0)
       (Concrete.request EVHTTP_REQ_GET "/rest/tx" 1)
     = Some (Concrete.module_state 0,
             [(HTTP_INTERNAL, "Work queue depth exceeded"%string)]).
Proof.
  split; [|split].
  - apply (proj1 (@request_callback_gates nat (list nat) Concrete.IsValid
                    Concrete.Match nat (Concrete.module_state 1)
                    (Concrete.request EVHTTP_REQ_PUT "/" 9))).
    reflexivity.
  - destruct (proj2 (proj2 (proj2
               (@request_callback_gates nat (list nat) Concrete.IsValid
                  Concrete.Match nat (Concrete.module_state 1)
                  (Concrete.request EVHTTP_REQ_GET "/rest/tx" 1))))
               [] Concrete.rest_handler [Concrete.root_handler] "tx"%string
               (WorkQueue_new _ 1) eq_refl eq_refl eq_refl
               (Forall_nil _) (ex_intro _ "tx"%string eq_refl) eq_refl eq_refl)
      as [Hin _].
    destruct (Hin eq_refl) as (_ & st' & wq' & Hcb & Hwq & Hq & _).
    exists st', wq'. split; [exact Hcb | split; [exact Hwq | exact Hq]].
  - destruct (proj2 (proj2 (proj2
               (@request_callback_gates nat (list nat) Concrete.IsValid
                  Concrete.Match nat (Concrete.module_state 0)
                  (Concrete.request EVHTTP_REQ_GET "/rest/tx" 1))))
               [] Concrete.rest_handler [Concrete.root_handler] "tx"%string
               (WorkQueue_new _ 0) eq_refl eq_refl eq_refl
               (Forall_nil _) (ex_intro _ "tx"%string eq_refl) eq_refl eq_refl)
      as [_ Hfull].
    exact (Hfull eq_refl).
Defined.

Lemma lookup_returns_first_match_witness :
  exists p, find_handler "/rest/x"%string
              [Concrete.root_handler; Concrete.rest_handler; Concrete.any_handler]
            = Some (Some (Concrete.rest_handler, p))
            /\ "/rest/x"%string = (prefix Concrete.rest_handler ++ p)%string.
Proof.
  apply (proj2 (proj2 (proj2
           (@lookup_returns_first_match nat "/rest/x"%string
              [Concrete.root_handler; Concrete.rest_handler; Concrete.any_handler])))
         [Concrete.root_handler] Concrete.rest_handler [] Concrete.any_handler []).
  - reflexivity.
  - constructor; [|constructor]. unfold spec_matches; simpl. discriminate.
  - exists "x"%string. reflexivity.
  - exists "rest/x"%string. reflexivity.
Defined.

(** ** Bind addresses *)

Section BindFacts.

Variable CSubNet : Type.
Variable CSubNet_parse : string -> CSubNet.
Variable CSubNet_IsValid : CSubNet -> bool.
Variable GetArg : Args -> string -> Z -> Z.
Variable GetBoolArg : Args -> string -> bool -> bool.
Variable RPCPort : Z.
Variable SplitHostPort : string -> Z -> string -> Z * string.
Variable Net : Type.
Variable evhttp_bound_socket : Type.
Variable evhttp_bind_socket_with_handle :
  Net -> option string -> Z -> Net * option evhttp_bound_socket.
Variable HTTPWorkItem : Type.

Abbreviation State := (BindState Net evhttp_bound_socket).
Abbreviation bind_loop := (bind_all evhttp_bind_socket_with_handle).
Abbreviation bind_addresses :=
  (HTTPBindAddresses GetArg RPCPort SplitHostPort evhttp_bind_socket_with_handle).
Abbreviation handles := (bound_handles evhttp_bind_socket_with_handle).

Lemma bind_all_boundSockets endpoints : forall (st : State),
  boundSockets (bind_loop st endpoints)
  = boundSockets st ++ handles (net st) endpoints.
Proof.
  induction endpoints as [|[host port] rest IH]; intros st; simpl.
  - now rewrite app_nil_r.
  - destruct (evhttp_bind_socket_with_handle (net st) _ port) as [n' [s|]].
    + rewrite IH. simpl. now rewrite <- app_assoc.
    + rewrite IH. reflexivity.
Qed.

Lemma HTTPBindAddresses_boundSockets (a : Args) (st : State) :
  boundSockets (snd (bind_addresses a st))
  = boundSockets st
    ++ handles (net st)
         (fst (bind_endpoints SplitHostPort a (to_int (GetArg a "-rpcport" RPCPort)))).
Proof.
  unfold HTTPBindAddresses.
  destruct (bind_endpoints SplitHostPort a _) as [endpoints warning]. simpl.
  now rewrite bind_all_boundSockets.
Qed.

Lemma HTTPBindAddresses_result (a : Args) (st : State) :
  fst (bind_addresses a st) = true
  <-> boundSockets (snd (bind_addresses a st)) <> [].
Proof.
  unfold HTTPBindAddresses.
  destruct (bind_endpoints SplitHostPort a _) as [endpoints warning]. simpl.
  destruct (boundSockets (bind_loop _ endpoints)); simpl; split; congruence.
Qed.

Lemma to_uint16_to_int (z : Z) : 0 <= z < 2 ^ 16 -> to_uint16 (to_int z) = z.
Proof.
  intros H. unfold to_uint16, to_int.
  assert (E : (z + 2 ^ 31) mod 2 ^ 32 = z + 2 ^ 31).
  { apply Z.mod_small. lia. }
  rewrite E. replace (z + 2 ^ 31 - 2 ^ 31) with z by lia.
  apply Z.mod_small. lia.
Qed.

(** C8. The addresses [HTTPBindAddresses] binds, with [P] the configured
    RPC port.  Without [-rpcallowip]: [::1] and [127.0.0.1] on [P],
    whatever [-rpcbind] holds, and a warning is logged exactly when
    [-rpcbind] is set.  With [-rpcallowip] and [-rpcbind]: each
    [-rpcbind] value split into host and port, the port starting out as
    [P].  With [-rpcallowip] alone: [::] and [0.0.0.0] on [P].  The
    function binds these endpoints in order and, starting with no bound
    socket, returns true exactly when at least one bind succeeds;
    [InitHTTPServer] fails when it returns false.  A port stays as
    configured when it is a 16-bit port number. *)
Theorem bind_address_selection :
  forall (a : Args) (st : State),
    let P := to_int (GetArg a "-rpcport" RPCPort) in
    let endpoints := fst (bind_endpoints SplitHostPort a P) in
    let warning := snd (bind_endpoints SplitHostPort a P) in
    (mapArgs_count a "-rpcallowip" = false ->
     endpoints = [("::1"%string, to_uint16 P); ("127.0.0.1"%string, to_uint16 P)]
     /\ warning = if mapArgs_count a "-rpcbind" then [LogRpcbindIgnored] else [])
    /\ (mapArgs_count a "-rpcallowip" = true ->
        mapArgs_count a "-rpcbind" = true ->
        endpoints = map (fun i => (snd (SplitHostPort i P ""%string),
                                   to_uint16 (fst (SplitHostPort i P ""%string))))
                        (mapMultiArgs a "-rpcbind")
        /\ warning = [])
    /\ (mapArgs_count a "-rpcallowip" = true ->
        mapArgs_count a "-rpcbind" = false ->
        endpoints = [("::"%string, to_uint16 P); ("0.0.0.0"%string, to_uint16 P)]
        /\ warning = [])
    /\ boundSockets (snd (bind_addresses a st))
       = boundSockets st ++ handles (net st) endpoints
    /\ (boundSockets st = [] ->
        (fst (bind_addresses a st) = true <-> handles (net st) endpoints <> []))
    /\ (boundSockets st = [] ->
        handles (net st) endpoints = [] ->
        forall event_base_ok evhttp_ok,
          InitHTTPServer CSubNet_parse CSubNet_IsValid GetArg GetBoolArg RPCPort
            SplitHostPort evhttp_bind_socket_with_handle HTTPWorkItem
            a event_base_ok evhttp_ok st = None)
    /\ (0 <= GetArg a "-rpcport" RPCPort < 2 ^ 16 ->
        to_uint16 P = GetArg a "-rpcport" RPCPort).
Proof.
  intros a st P endpoints warning.
  assert (Hbound : boundSockets (snd (bind_addresses a st))
                   = boundSockets st ++ handles (net st) endpoints)
    by apply HTTPBindAddresses_boundSockets.
  assert (Hres : boundSockets st = [] ->
                 (fst (bind_addresses a st) = true
                  <-> handles (net st) endpoints <> [])).
  { intros Hempty. rewrite HTTPBindAddresses_result, Hbound, Hempty. reflexivity. }
  repeat match goal with |- _ /\ _ => split end.
  - intros Hallow. subst endpoints warning. unfold bind_endpoints.
    rewrite Hallow. simpl. split; reflexivity.
  - intros Hallow Hbind. subst endpoints warning. unfold bind_endpoints.
    rewrite Hallow, Hbind. simpl. split; [|reflexivity].
    apply map_ext. intros i. now destruct (SplitHostPort i P "").
  - intros Hallow Hbind. subst endpoints warning. unfold bind_endpoints.
    rewrite Hallow, Hbind. simpl. split; reflexivity.
  - exact Hbound.
  - exact Hres.
  - intros Hempty Hnone event_base_ok evhttp_ok.
    assert (Hfalse : fst (bind_addresses a st) = false).
    { apply not_true_is_false. intros E.
      apply (Hres Hempty) in E. contradiction. }
    unfold InitHTTPServer.
    destruct (InitHTTPAllowList CSubNet_parse CSubNet_IsValid a); [|reflexivity].
    simpl. destruct (GetBoolArg a "-rpcssl" false); [reflexivity|].
    destruct event_base_ok; [|reflexivity].
    destruct evhttp_ok; [|reflexivity]. simpl.
    destruct (bind_addresses a st) as [bound st'].
    simpl in Hfalse. now rewrite Hfalse.
  - intros Hport. subst P. now apply to_uint16_to_int.
Qed.

End BindFacts.

Module ConcreteBindFacts.
Import ConcreteBind.
Open Scope string_scope.

Example loopback_only :
  HTTPBindAddresses get 18332 split bind (args [] ["192.168.1.2"]) start
  = (true, {| net := [("127.0.0.1", 18332)];
              boundSockets := [0%nat];
              log := [LogRpcbindIgnored; LogBindFailed "::1" 18332] |}).
Proof. reflexivity. Qed.

Example explicit_bind :
  HTTPBindAddresses get 18332 split bind
    (args ["10.0.0.0/8"] ["192.168.1.2:8332"; "0.0.0.0"]) start
  = (true, {| net := [("192.168.1.2", 8332); ("0.0.0.0", 18332)];
              boundSockets := [0%nat; 1%nat];
              log := [] |}).
Proof. reflexivity. Qed.

Example nothing_bound :
  HTTPBindAddresses get 18332 split bind (args ["10.0.0.0/8"] ["::1"]) start
  = (false, {| net := []; boundSockets := []; log := [LogBindFailed "::1" 18332] |}).
Proof. reflexivity. Qed.

End ConcreteBindFacts.

Lemma bind_address_selection_witness :
  fst (bind_endpoints ConcreteBind.split (ConcreteBind.args [] ["192.168.1.2"%string])
         (to_int (ConcreteBind.get (ConcreteBind.args [] ["192.168.1.2"%string])
                    "-rpcport" 18332)))
  = [("::1"%string, to_uint16 (to_int 18332));
     ("127.0.0.1"%string, to_uint16 (to_int 18332))]
  /\ snd (bind_endpoints ConcreteBind.split
            (ConcreteBind.args [] ["192.168.1.2"%string])
            (to_int (ConcreteBind.get (ConcreteBind.args [] ["192.168.1.2"%string])
                       "-rpcport" 18332)))
     = [LogRpcbindIgnored].
Proof.
  apply (proj1 (@bind_address_selection unit (fun _ => tt) (fun _ => true)
                  ConcreteBind.get (fun _ _ d => d) 18332 ConcreteBind.split
                  (list (string * Z)) nat ConcreteBind.bind unit
                  (ConcreteBind.args [] ["192.168.1.2"%string])
                  ConcreteBind.start)).
  reflexivity.
Defined.

(** ** The scheduler *)

Module SchedulerFacts.
Import Scheduler.

(** *** Time in 64 bits *)





Section Transitions.

Variable UserFn : Type.
Variable BOOST_VERSION : Z.

Abbreviation world := (World UserFn).
Abbreviation do_step := (@step UserFn BOOST_VERSION).
Abbreviation do_run := (@run UserFn BOOST_VERSION).
Abbreviation parked := (@Scheduler.parked UserFn BOOST_VERSION).
Abbreviation threads_change := (@Scheduler.threads_change UserFn BOOST_VERSION).
Abbreviation transition := (@Scheduler.transition UserFn BOOST_VERSION).
Abbreviation reachable := (@Scheduler.reachable UserFn BOOST_VERSION).

Implicit Types (w : World UserFn) (q : TaskQueue UserFn) (f : Task UserFn)
  (v : Invocation UserFn) (ts : ThreadState UserFn).

(** *** Lists of threads *)

Lemma length_update (A : Type) (i : nat) (x : A) (l : list A) :
  List.length (update i x l) = List.length l.
Proof.
  revert i; induction l as [|y l IH]; intros [|i]; simpl; auto.
Qed.

Lemma nth_error_update_inv (A : Type) (i : nat) (x : A) (l : list A) (j : nat) (y : A) :
  nth_error (update i x l) j = Some y -> y = x \/ nth_error l j = Some y.
Proof.
  revert i j; induction l as [|z l IH]; intros [|i] [|j]; simpl; intros H;
    try discriminate; auto.
  - injection H as <-. now left.
  - eapply IH, H.
Qed.

Lemma nth_error_update_other (A : Type) (i : nat) (x : A) (l : list A) (j : nat) :
  i <> j -> nth_error (update i x l) j = nth_error l j.
Proof.
  revert i j; induction l as [|z l IH]; intros [|i] [|j] H; simpl; auto;
    try congruence.
Qed.

Lemma update_last (A : Type) (x y : A) (l : list A) :
  update (List.length l) x (l ++ [y]) = l ++ [x].
Proof. induction l as [|z l IH]; simpl; [reflexivity | now rewrite IH]. Qed.

(** *** The task queue *)

Lemma insert_perm (t : time_point) f q : Permutation (insert t f q) ((t, f) :: q).
Proof.
  induction q as [|[t' f'] q IH]; simpl; [reflexivity|].
  destruct (t <? t'); [reflexivity|].
  rewrite IH. apply perm_swap.
Qed.

(** An insertion never moves the first key later. *)
Lemma insert_front (t : time_point) f q t0 f0 rest :
  q = (t0, f0) :: rest ->
  exists t1 f1 rest1, insert t f q = (t1, f1) :: rest1 /\ t1 <= t0.
Proof.
  intros ->. simpl. destruct (Z.ltb_spec t t0).
  - do 3 eexists; split; [reflexivity | lia].
  - do 3 eexists; split; [reflexivity | lia].
Qed.

(** *** Every step is a transition *)

Lemma loop_head_quiet w i :
  taskQueue (sched (loop_head BOOST_VERSION w i)) = taskQueue (sched w)
  /\ trace (loop_head BOOST_VERSION w i) = trace w
  /\ next_id (loop_head BOOST_VERSION w i) = next_id w
  /\ now (loop_head BOOST_VERSION w i) = now w
  /\ exists ts, parked w ts
                /\ threads (loop_head BOOST_VERSION w i) = update i ts (threads w).
Proof.
  unfold loop_head, parked. destruct (shouldStop (sched w)); simpl.
  - repeat split; auto. exists Exited. auto.
  - destruct (taskQueue (sched w)) as [|[t f] rest] eqn:E; simpl.
    + repeat split; auto. exists WaitEmpty. auto.
    + repeat split; auto. eexists. split; [|reflexivity].
      right; right; right. now exists t, f, rest.
Qed.

Lemma loop_head_transition w i : transition w (loop_head BOOST_VERSION w i).
Proof.
  destruct (loop_head_quiet w i) as (Hq & Ht & Hn & Hnow & ts & Hp & Hth).
  apply tr_quiet; auto; [lia|]. rewrite Hth. now apply tc_update.
Qed.

Lemma schedule_transition w parent fn t :
  posted_by w t {| task_id := next_id w; task_posted := now w;
                   task_parent := parent; task_fn := fn |} ->
  transition w (schedule w parent fn t).
Proof.
  intros H. eapply tr_insert; try reflexivity; [exact H | now left].
Qed.

Lemma step_transition w e w' : do_step w e = Some w' -> transition w w'.
Proof.
  destruct e as [d| |i|i|i|i|u t|u delta|u delta|drain]; simpl.
  - destruct (Z.leb_spec 0 d) as [Hd|Hd]; [|discriminate]. intros H; injection H as <-.
    apply tr_quiet; simpl; auto; [lia | constructor].
  - intros H; injection H as <-.
    match goal with |- transition _ (loop_head _ ?w0 _) =>
      destruct (loop_head_quiet w0 (List.length (threads w)))
        as (Hq & Ht & Hn & Hnow & ts & Hp & Hth) end.
    simpl in *. apply tr_quiet; auto; [lia|].
    rewrite Hth, update_last. apply tc_new. exact Hp.
  - destruct (nth_error (threads w) i) as [[| |t|v|]|]; try discriminate;
      intros H; injection H as <-; apply loop_head_transition.
  - destruct (nth_error (threads w) i) as [[| |t0|v|]|] eqn:Ei; try discriminate.
    destruct (Z.leb_spec t0 (now w)) as [Ht0|Ht0]; [|discriminate].
    intros H; injection H as <-. unfold after_timeout.
    destruct (shouldStop (sched w) || empty (taskQueue (sched w))) eqn:Es;
      [apply loop_head_transition|].
    destruct (taskQueue (sched w)) as [|[t f] rest] eqn:Eq.
    + rewrite orb_true_r in Es. discriminate.
    + eapply tr_take; simpl; eauto.
  - destruct (nth_error (threads w) i) as [[| |t0|v|]|] eqn:Ei; try discriminate.
    intros H; injection H as <-.
    destruct (task_fn (inv_task v)) as [u|u delta] eqn:Ef.
    + apply tr_quiet; simpl; auto; [lia|]. apply tc_update. left; reflexivity.
    + eapply tr_insert; simpl; try reflexivity.
      * right. exists u, delta. simpl. repeat split.
        right. now exists i, v.
      * right. now exists i.
  - destruct (nth_error (threads w) i) as [[| |t0|v|]|]; try discriminate;
      intros H; injection H as <-;
      (apply tr_quiet; simpl; auto; [lia|]; apply tc_update; right; left; reflexivity).
  - intros H; injection H as <-. apply schedule_transition.
    left. now exists u.
  - intros H; injection H as <-. apply schedule_transition.
    left. now exists u.
  - intros H; injection H as <-. apply schedule_transition.
    right. exists u, delta. simpl. auto.
  - intros H; injection H as <-. apply tr_quiet; simpl; auto; [lia | constructor].
Qed.

Lemma run_app es1 : forall w es2,
  do_run w (es1 ++ es2) = (w1 <- do_run w es1 ;; do_run w1 es2).
Proof.
  induction es1 as [|e es1 IH]; intros w es2; simpl; [reflexivity|].
  destruct (do_step w e) as [w1|]; simpl; [apply IH | reflexivity].
Qed.

Lemma run_reachable es : forall w0 w, do_run w0 es = Some w -> reachable w0 w.
Proof.
  induction es as [|e es IH] using rev_ind; intros w0 w H.
  - injection H as <-. constructor.
  - rewrite run_app in H. destruct (do_run w0 es) as [w1|] eqn:E1; [|discriminate].
    simpl in H. destruct (do_step w1 e) as [w2|] eqn:E2; [|discriminate].
    injection H as <-. eapply reach_step; [apply IH, E1 | eapply step_transition, E2].
Qed.

(** *** Each task is called at most once *)

Lemma transition_ids w w' : transition w w' -> ids_ok w -> ids_ok w'.
Proof.
  intros T [Hnd Hlt]. unfold ids_ok, ids in *.
  destruct T as [Hq Htr Hn _ _ | t f Hq Hid _ _ Hn Htr _ _
                | i t0 t f rest _ _ Hq Hq' Htr _ Hn _].
  - rewrite Hq, Htr, Hn. now split.
  - rewrite Hq, Htr, Hn.
    assert (P : Permutation
                  (next_id w :: queue_ids (taskQueue (sched w)) ++ trace_ids (trace w))
                  (queue_ids (insert t f (taskQueue (sched w))) ++ trace_ids (trace w))).
    { rewrite app_comm_cons. apply Permutation_app_tail.
      rewrite <- Hid. symmetry.
      apply (Permutation_map (fun e => task_id (snd e)) (insert_perm t f _)). }
    split.
    + apply (Permutation_NoDup P). constructor; [|exact Hnd].
      intros Hin. rewrite Forall_forall in Hlt. apply Hlt in Hin. lia.
    + apply (Permutation_Forall P). constructor; [lia|].
      eapply Forall_impl; [|exact Hlt]. simpl. intros; lia.
  - rewrite Hq in *. rewrite Hq', Htr, Hn. simpl in *.
    assert (P : Permutation
                  (task_id f :: queue_ids rest ++ trace_ids (trace w))
                  (queue_ids rest ++ task_id f :: trace_ids (trace w)))
      by apply Permutation_middle.
    split; [apply (Permutation_NoDup P) | apply (Permutation_Forall P)]; assumption.
Qed.

Lemma reachable_ids w0 w : reachable w0 w -> ids_ok w0 -> ids_ok w.
Proof.
  induction 1 as [|w w' _ IH T]; intros H0; [exact H0|].
  eapply transition_ids; eauto.
Qed.

Lemma World_new_ids (t0 : time_point) : ids_ok (@World_new UserFn t0).
Proof. split; constructor. Qed.

(** *** What the book-keeping fields record *)


Lemma In_update (A : Type) (i : nat) (x y : A) (l : list A) :
  In y (update i x l) -> y = x \/ In y l.
Proof.
  revert i; induction l as [|z l IH]; intros [|i]; simpl; intros H; auto.
  - destruct H as [<-|H]; auto.
  - destruct H as [<-|H]; auto. destruct (IH _ H); auto.
Qed.






(** *** One service thread never calls a task early *)

Lemma transition_length w w' :
  transition w w' -> (List.length (threads w) <= List.length (threads w'))%nat.
Proof.
  intros [_ _ _ _ Hth | t f _ _ _ _ _ _ _ Hth | i t0 t f rest _ _ _ _ _ Eth _ _].
  - destruct Hth as [|i ts _|ts _].
    + lia.
    + rewrite length_update. lia.
    + rewrite length_app. simpl. lia.
  - destruct Hth as [->|[i ->]]; [|rewrite length_update]; lia.
  - rewrite Eth, length_update. lia.
Qed.

Hypothesis boost_1_50 : 105000 <= BOOST_VERSION.

Lemma wait_deadline_exact (t : time_point) : wait_deadline BOOST_VERSION t = t.
Proof.
  unfold wait_deadline. destruct (Z.ltb_spec BOOST_VERSION 105000); [lia | reflexivity].
Qed.

Lemma parked_wait w ts t :
  parked w ts -> ts = WaitUntil t ->
  exists t0 f0 rest, taskQueue (sched w) = (t0, f0) :: rest /\ t0 <= t.
Proof.
  intros [->|[->|[->|(t0 & f0 & rest & Eq & ->)]]] E; try discriminate.
  injection E as <-. rewrite wait_deadline_exact.
  exists t0, f0, rest. split; [exact Eq | lia].
Qed.

Lemma transition_punctual w w' :
  transition w w' -> (List.length (threads w') <= 1)%nat -> punctual w -> punctual w'.
Proof.
  intros T Hlen [Hw Htr].
  destruct T as [Eq Etr _ _ Hth | t f Eq _ _ _ _ Etr _ Hth
                | i t0 t f rest Hi Ht0 Eq Eq' Etr Eth _ Enow].
  - split; [|now rewrite Etr]. rewrite Eq. intros t Hin.
    destruct Hth as [|i ts Hp|ts Hp]; [now apply Hw| |].
    + apply In_update in Hin. destruct Hin as [E|Hin]; [|now apply Hw].
      eapply parked_wait; eauto.
    + apply in_app_or in Hin. destruct Hin as [Hin|[E|[]]]; [now apply Hw|].
      eapply parked_wait; eauto.
  - split; [|now rewrite Etr]. rewrite Eq. intros t1 Hin.
    assert (Hold : In (WaitUntil t1) (threads w)).
    { destruct Hth as [E|[i E]]; rewrite E in Hin; [exact Hin|].
      apply In_update in Hin. destruct Hin as [E'|Hin]; [discriminate | exact Hin]. }
    destruct (Hw _ Hold) as (t0 & f0 & rest & Eq0 & Hle).
    destruct (@insert_front t f _ _ _ _ Eq0) as (t2 & f2 & rest2 & E2 & Hle2).
    exists t2, f2, rest2. split; [exact E2 | lia].
  - split.
    + intros t1 Hin. exfalso. rewrite Eth in Hin, Hlen. rewrite length_update in Hlen.
      destruct (threads w) as [|x [|y l]]; simpl in Hlen; try lia.
      * destruct i; discriminate.
      * destruct i as [|i]; simpl in *; [|destruct i; discriminate].
        destruct Hin as [E|[]]. discriminate.
    + rewrite Etr. constructor; [|exact Htr]. simpl.
      apply nth_error_In in Hi. destruct (Hw _ Hi) as (t2 & f2 & rest2 & E2 & Hle2).
      rewrite Eq in E2. injection E2 as <- _ _. lia.
Qed.

Lemma reachable_punctual w0 w :
  reachable w0 w -> (List.length (threads w) <= 1)%nat -> punctual w0 -> punctual w.
Proof.
  induction 1 as [|w w' _ IH T]; intros Hlen H0; [exact H0|].
  pose proof (transition_length T).
  eapply transition_punctual; eauto. apply IH; [lia | exact H0].
Qed.

Lemma World_new_punctual (t0 : time_point) : punctual (@World_new UserFn t0).
Proof. split; [intros t [] | constructor]. Qed.

End Transitions.

Section Runs.

Variable UserFn : Type.
Variable BOOST_VERSION : Z.

Implicit Types (w : World UserFn) (v : Invocation UserFn).

Lemma never_early (t0 : time_point) (es : list (Event UserFn)) w :
  105000 <= BOOST_VERSION ->
  run BOOST_VERSION (World_new t0) es = Some w ->
  (List.length (threads w) <= 1)%nat ->
  Forall (fun v => inv_key v <= inv_time v) (trace w).
Proof.
  intros Hb H Hlen.
  assert (R : reachable BOOST_VERSION (World_new t0) w)
    by (eapply run_reachable; exact H).
  exact (proj2 (reachable_punctual Hb R Hlen (World_new_punctual UserFn t0))).
Qed.

(** X1. Each task put in the queue is called at most once, by however many
    threads the queue is serviced: no two calls in the trace are of the
    same insertion, and a task that was called is no longer queued. *)
Theorem each_task_called_at_most_once :
  forall (t0 : time_point) (es : list (Event UserFn)) w,
    run BOOST_VERSION (World_new t0) es = Some w ->
    NoDup (trace_ids (trace w))
    /\ forall v, In v (trace w) ->
                 (task_id (inv_task v) < next_id w)%nat
                 /\ ~ In (task_id (inv_task v)) (queue_ids (taskQueue (sched w))).
Proof.
  intros t0 es w H.
  assert (R : reachable BOOST_VERSION (World_new t0) w)
    by (eapply run_reachable; exact H).
  destruct (reachable_ids R (World_new_ids UserFn t0)) as [Hnd Hlt].
  unfold ids in *. split; [eapply NoDup_app_remove_l, Hnd|].
  intros v Hin.
  assert (Hid : In (task_id (inv_task v)) (trace_ids (trace w))).
  { unfold trace_ids. apply in_map_iff. now exists v. }
  split.
  - rewrite Forall_forall in Hlt. apply Hlt, in_or_app. now right.
  - intros Hq. revert Hnd Hq Hid.
    generalize (queue_ids (taskQueue (sched w))) (trace_ids (trace w)) (task_id (inv_task v)).
    intros l1 l2 n Hnd H1 H2. induction l1 as [|a l1 IH]; [contradiction|].
    simpl in Hnd. inversion Hnd as [|a' l' Hnot Hnd']; subst.
    destruct H1 as [->|H1]; [|now apply IH].
    apply Hnot, in_or_app. now right.
Qed.

(** X2. With one thread servicing the queue, and Boost 1.50 or later, no
    task is called before its time. *)
Theorem single_thread_never_early :
  forall (t0 : time_point) (es : list (Event UserFn)) w,
    105000 <= BOOST_VERSION ->
    run BOOST_VERSION (World_new t0) es = Some w ->
    (List.length (threads w) <= 1)%nat ->
    Forall (fun v => inv_key v <= inv_time v) (trace w).
Proof.
  intros t0 es w Hb H Hlen.
  eapply never_early; eassumption.
Qed.


End Runs.

(** *** Runs of the scheduler on concrete tasks *)

Import SchedulerRuns.
Open Scope string_scope.

(** C4, where the code departs from it: with two service threads a task
    is called before its time. *)
Lemma two_service_threads_call_task_early :
  calls (run 105000 (World_new 0) two_threads)
  = Some [(Call "B", 0, 5000, 1000); (Call "A", 0, 1000, 1000)].
Proof. reflexivity. Qed.

(** Built against Boost before 1.50 the wait is for the key cut down to
    whole seconds: one thread calls a task due at 1.5 s at 1 s. *)
Lemma old_boost_calls_task_early :
  calls (run 104900 (World_new 0)
           [DoSchedule "A" 1500000000; Enter; Tick 1000000000; Timeout 0])
  = Some [(Call "A", 0, 1500000000, 1000000000)].
Proof. reflexivity. Qed.


(** A period too long for the clock: [scheduleEvery(f, 9223372037)] at
    clock reading 100.  The sum does not fit in 64 bits, the deadline
    queued is before now, and the one service thread calls [f] at
    once. *)
Lemma long_period_is_due_at_once :
  ~ fits_int64 (100 + seconds 9223372037)
  /\ calls (run 105000 (World_new 100) long_period)
     = Some [(BindRepeat "f" 9223372037, 100, -9223372036709551516, 100)].
Proof. split; [unfold fits_int64, seconds, ticks_per_second; lia | reflexivity]. Qed.

Lemma each_task_called_at_most_once_witness :
  exists w, run 105000 (World_new 0) two_threads = Some w
            /\ NoDup (trace_ids (trace w)).
Proof.
  eexists. split; [reflexivity|].
  eapply (each_task_called_at_most_once 105000 0 two_threads). reflexivity.
Defined.

Lemma single_thread_never_early_witness :
  exists w, run 105000 (World_new 0) busy_thread = Some w
            /\ Forall (fun v => inv_key v <= inv_time v) (trace w).
Proof.
  eexists. split; [reflexivity|].
  eapply (single_thread_never_early (BOOST_VERSION := 105000) 0 busy_thread).
  - lia.
  - reflexivity.
  - simpl. lia.
Defined.


End SchedulerFacts.

(** ** More on the work queue *)

Section WorkQueueOrder.

Variable WorkItem : Type.
Implicit Types (q : WorkQueue WorkItem) (ops : list (QueueOp WorkItem)).

Lemma apply_op_fifo q op :
  queue q ++ accepted_by q op = taken_by q op ++ queue (apply_op q op).
Proof.
  destruct op as [item| | | | |]; simpl; try apply app_nil_r.
  - unfold Enqueue. destruct (queue_size q >=? maxDepth q); simpl.
    + apply app_nil_r.
    + reflexivity.
  - unfold Run_locked. destruct (running q); simpl.
    + destruct (queue q) as [|i rest] eqn:E; simpl; rewrite ?E, ?app_nil_r;
        reflexivity.
    + apply app_nil_r.
Qed.

(** X3. The queue is first in, first out, and loses and repeats nothing:
    along any sequence of operations, what was queued at the start
    followed by the items [Enqueue] accepted is what [Run] took followed
    by what is still queued. *)
Theorem work_queue_is_fifo :
  forall q ops,
    queue q ++ accepted_items q ops
    = taken_items q ops ++ queue (run_ops q ops).
Proof.
  intros q ops. revert q.
  induction ops as [|op ops IH]; intros q; simpl.
  - now rewrite app_nil_r.
  - rewrite app_assoc, apply_op_fifo, <- !app_assoc. f_equal. apply IH.
Qed.

Lemma apply_op_stopped q op :
  running q = false -> running (apply_op q op) = false.
Proof.
  intros H. destruct op; simpl; auto.
  - unfold Enqueue. destruct (queue_size q >=? maxDepth q); simpl; auto.
  - unfold Run_locked. now rewrite H.
Qed.

(** X4. Once the queue is interrupted nothing is taken from it any more:
    whatever operations follow, [Run] takes no item, the queue stays
    interrupted, and the items [Enqueue] still accepts pile up behind
    those that were queued, to be deleted unrun by the destructor. *)
Theorem interrupted_queue_runs_nothing :
  forall q ops,
    running q = false ->
    taken_items q ops = []
    /\ running (run_ops q ops) = false
    /\ Run_locked (run_ops q ops) = RunBreak WorkItem
    /\ WorkQueue_destroy (run_ops q ops) = queue q ++ accepted_items q ops.
Proof.
  intros q ops Hq.
  assert (Ht : taken_items q ops = []).
  { revert q Hq. induction ops as [|op ops IH]; intros q Hq; simpl; [reflexivity|].
    rewrite (IH _ (apply_op_stopped q op Hq)), app_nil_r.
    destruct op; try reflexivity. simpl. unfold Run_locked. now rewrite Hq. }
  assert (Hr : running (run_ops q ops) = false).
  { clear Ht. revert q Hq.
    induction ops as [|op ops IH]; intros q Hq; simpl; [exact Hq|].
    apply IH, apply_op_stopped, Hq. }
  split; [exact Ht|split; [exact Hr|split]].
  - unfold Run_locked. now rewrite Hr.
  - unfold WorkQueue_destroy. rewrite work_queue_is_fifo, Ht. reflexivity.
Qed.

End WorkQueueOrder.

Lemma interrupted_queue_runs_nothing_witness :
  taken_items (Interrupt (WorkQueue_new nat 2))
    [OpEnqueue 1%nat; OpRun nat; OpEnqueue 2%nat; OpRun nat] = [].
Proof.
  apply (@interrupted_queue_runs_nothing nat (Interrupt (WorkQueue_new nat 2))
           [OpEnqueue 1%nat; OpRun nat; OpEnqueue 2%nat; OpRun nat]).
  reflexivity.
Defined.

(** ** From arrival to reply *)

Section ServiceFacts.

Variable CNetAddr : Type.
Variable CSubNet : Type.
Variable IsValid : CNetAddr -> bool.
Variable Match : CSubNet -> CNetAddr -> bool.
Variable HTTPRequestHandler : Type.

Abbreviation ModuleState := (HTTPModule CNetAddr CSubNet HTTPRequestHandler).
Abbreviation Item := (HTTPWorkItem CNetAddr HTTPRequestHandler).
Abbreviation callback := (@http_request_cb CNetAddr CSubNet IsValid Match HTTPRequestHandler).
Abbreviation step := (@service_step CNetAddr CSubNet IsValid Match HTTPRequestHandler).
Abbreviation run := (@service CNetAddr CSubNet IsValid Match HTTPRequestHandler).

Implicit Types (st : ModuleState) (r : evhttp_request CNetAddr)
  (wq : WorkQueue Item) (item : Item).

(** The callback either answers at once or queues the request. *)
Lemma callback_outcome st r wq :
  workQueue st = Some wq ->
  (exists rep, callback st r = Some (st, [rep]))
  \/ (exists item,
         item_req item = HTTPRequest_new r
         /\ Depth wq < maxDepth wq
         /\ callback st r = Some (set_workQueue st (push_back wq item), [])).
Proof.
  intros Hwq.
  destruct (ClientAllowed IsValid Match (rpc_allow_subnets st) (ev_peer r)) eqn:Ha.
  2:{ left. eexists. now apply callback_forbidden. }
  destruct (known_method (ev_command r)) eqn:Hm.
  2:{ left. eexists. now apply callback_bad_method. }
  rewrite (callback_past_gates _ _ _ _ Ha Hm).
  destruct (find_handler_cases (ev_uri r) (pathHandlers st))
    as [[Hn _] | (before & i & after & p & _ & _ & _ & _ & Hf)].
  - rewrite Hn. simpl. left. eexists. reflexivity.
  - rewrite Hf. simpl. rewrite Hwq. simpl.
    destruct (Z.lt_ge_cases (Depth wq) (maxDepth wq)) as [Hlt|Hge].
    + right. eexists. split; [|split; [exact Hlt|]].
      2:{ rewrite (Enqueue_below _ _ Hlt). reflexivity. }
      reflexivity.
    + left. rewrite (Enqueue_full _ _ Hge), (set_workQueue_same _ Hwq).
      eexists. reflexivity.
Qed.

(** X5. Whatever the request, the callback either posts exactly one
    reply and leaves the module as it was, or posts none and appends to
    the work queue one item holding the request, no reply written on it;
    the handler list and the allow list are never changed.  It fails
    (the assertion on [workQueue]) only when there is no work queue and
    the request has passed the gates and found a handler. *)
Theorem callback_answers_or_queues :
  forall st r,
    (forall wq,
        workQueue st = Some wq ->
        (exists rep, callback st r = Some (st, [rep]))
        \/ (exists item,
               item_req item = HTTPRequest_new r
               /\ callback st r = Some (set_workQueue st (push_back wq item), [])
               /\ workQueue (set_workQueue st (push_back wq item))
                  = Some (push_back wq item)
               /\ queue (push_back wq item) = queue wq ++ [item]))
    /\ (forall st' out,
           callback st r = Some (st', out) ->
           pathHandlers st' = pathHandlers st
           /\ rpc_allow_subnets st' = rpc_allow_subnets st)
    /\ (callback st r = None <->
        workQueue st = None
        /\ ClientAllowed IsValid Match (rpc_allow_subnets st) (ev_peer r) = true
        /\ known_method (ev_command r) = true
        /\ exists i, In i (pathHandlers st) /\ spec_matches (ev_uri r) i).
Proof.
  intros st r. split; [|split].
  - intros wq Hwq. destruct (callback_outcome st r Hwq) as [H|(item & H1 & _ & H2)].
    + now left.
    + right. exists item. repeat split; assumption || reflexivity.
  - intros st' out H.
    destruct (workQueue st) as [wq|] eqn:Hwq.
    + destruct (callback_outcome st r Hwq) as [[rep E]|(item & _ & _ & E)];
        rewrite E in H; injection H as <- _; auto.
    + destruct (ClientAllowed IsValid Match (rpc_allow_subnets st) (ev_peer r)) eqn:Ha.
      2:{ rewrite (callback_forbidden _ _ _ _ Ha) in H. injection H as <- _. auto. }
      destruct (known_method (ev_command r)) eqn:Hm.
      2:{ rewrite (callback_bad_method _ _ _ _ Ha Hm) in H. injection H as <- _. auto. }
      rewrite (callback_past_gates _ _ _ _ Ha Hm) in H.
      destruct (find_handler_cases (ev_uri r) (pathHandlers st))
        as [[Hn _] | (before & i & after & p & _ & _ & _ & _ & Hf)].
      * rewrite Hn in H. simpl in H. injection H as <- _. auto.
      * rewrite Hf in H. simpl in H. rewrite Hwq in H. discriminate.
  - split.
    + intros H. destruct (workQueue st) as [wq|] eqn:Hwq.
      { destruct (callback_outcome st r Hwq) as [[rep E]|(item & _ & _ & E)];
          rewrite E in H; discriminate. }
      destruct (ClientAllowed IsValid Match (rpc_allow_subnets st) (ev_peer r)) eqn:Ha.
      2:{ rewrite (callback_forbidden _ _ _ _ Ha) in H. discriminate. }
      destruct (known_method (ev_command r)) eqn:Hm.
      2:{ rewrite (callback_bad_method _ _ _ _ Ha Hm) in H. discriminate. }
      rewrite (callback_past_gates _ _ _ _ Ha Hm) in H.
      destruct (find_handler_cases (ev_uri r) (pathHandlers st))
        as [[Hn _] | (before & i & after & p & E & _ & Hi & _ & Hf)].
      * rewrite Hn in H. discriminate.
      * repeat split; auto. exists i. split; [|exact Hi].
        rewrite E. apply in_or_app. right. now left.
    + intros (Hwq & Ha & Hm & i & Hin & Hi).
      rewrite (callback_past_gates _ _ _ _ Ha Hm).
      destruct (find_handler_cases (ev_uri r) (pathHandlers st))
        as [[_ Hall] | (before & i' & after & p & _ & _ & _ & _ & Hf)].
      * rewrite Forall_forall in Hall. exfalso. exact (Hall i Hin Hi).
      * rewrite Hf. simpl. now rewrite Hwq.
Qed.

(** A worker that calls a handler on an unanswered request and then
    deletes the item posts one reply, the handler's or the destructor's. *)
Lemma call_and_delete item r calls :
  item_req item = HTTPRequest_new r ->
  (List.length calls <= 1)%nat ->
  exists item' reps last_words,
    HTTPWorkItem_call item calls = Some (item', reps)
    /\ HTTPWorkItem_delete item' = Some last_words
    /\ List.length (reps ++ last_words) = 1%nat
    /\ (calls = [] -> reps ++ last_words
                     = [(HTTP_INTERNAL,
                         (ev_output_buffer r ++ "Unhandled request")%string)]).
Proof.
  intros Hr Hlen. unfold HTTPWorkItem_call, HTTPWorkItem_delete. rewrite Hr.
  destruct calls as [|[nStatus strReply] [|c calls]]; simpl in *; try lia.
  - do 3 eexists. repeat split; reflexivity.
  - do 3 eexists. repeat split; try reflexivity. discriminate.
Qed.

Lemma delete_unanswered (items : list Item) :
  Forall (fun item => exists r, item_req item = HTTPRequest_new r) items ->
  exists last_words,
    delete_items items = Some last_words
    /\ List.length last_words = List.length items
    /\ Forall (fun rep => fst rep = HTTP_INTERNAL) last_words.
Proof.
  induction 1 as [|item items [r Hr] _ (more & Hm & Hl & Hall)]; simpl.
  - exists []. repeat split; constructor.
  - unfold HTTPWorkItem_delete. rewrite Hr, Hm. simpl.
    eexists. split; [reflexivity|]. simpl. split; [now rewrite Hl|].
    constructor; [reflexivity | exact Hall].
Qed.

(** One event keeps the account: requests received so far are the
    replies posted plus the items queued. *)
Lemma service_step_account st wq ev :
  workQueue st = Some wq ->
  unanswered wq ->
  (forall calls, ev = WorkerPass CNetAddr calls -> (List.length calls <= 1)%nat) ->
  exists st' wq' out,
    step st ev = Some (st', out)
    /\ workQueue st' = Some wq'
    /\ unanswered wq'
    /\ (List.length out + List.length (queue wq')
        = List.length (incoming [ev]) + List.length (queue wq))%nat.
Proof.
  intros Hwq Hun Hev. destruct ev as [r|calls|]; simpl.
  - destruct (callback_outcome st r Hwq) as [[rep E]|(item & Hi & _ & E)]; rewrite E.
    + exists st, wq, [rep]. repeat split; auto.
    + eexists _, (push_back wq item), []. repeat split; try reflexivity.
      * unfold unanswered, push_back. simpl. apply Forall_app. split; [exact Hun|].
        constructor; [now exists r | constructor].
      * unfold push_back. simpl. rewrite length_app. simpl. lia.
  - rewrite Hwq. unfold Run_iteration, Run_locked.
    destruct (running wq).
    2:{ simpl. exists (set_workQueue st wq), wq, []. repeat split; auto. }
    destruct (queue wq) as [|i rest] eqn:Eq.
    { simpl. exists (set_workQueue st wq), wq, []. repeat split; auto.
      rewrite Eq. reflexivity. }
    unfold unanswered in Hun. rewrite Eq in Hun.
    inversion Hun as [|i0 l0 [r Hr] Hrest]; subst i0 l0.
    destruct (call_and_delete i calls Hr (Hev calls eq_refl))
      as (i' & reps & last & Hc & Hd & Hl & _).
    rewrite Hc. simpl. rewrite Hd. simpl.
    eexists _, _, _. split; [reflexivity|]. split; [reflexivity|].
    split; [exact Hrest|]. simpl. rewrite Hl. lia.
  - rewrite Hwq. exists (set_workQueue st (Interrupt wq)), (Interrupt wq), [].
    repeat split; auto.
Qed.

(** X6. Every request gets exactly one reply.  Start with a work queue
    whose items hold unanswered requests (a new queue is empty), let
    requests come in, workers run and the queue be interrupted in any
    order, the handlers writing at most one reply each: then no
    assertion fails, at every moment the requests received are as many
    as the replies posted plus the items queued, and when the queue is
    destroyed each item still queued is answered 500 by its request's
    destructor. *)
Theorem every_request_gets_one_reply :
  forall (evs : list (ServiceEvent CNetAddr)) st wq,
    workQueue st = Some wq ->
    unanswered wq ->
    handlers_reply_once evs ->
    exists st' wq' out last_words,
      run st evs = Some (st', out)
      /\ workQueue st' = Some wq'
      /\ (List.length out + List.length (queue wq')
          = List.length (incoming evs) + List.length (queue wq))%nat
      /\ HTTPWorkQueue_destroy wq' = Some last_words
      /\ List.length last_words = List.length (queue wq')
      /\ Forall (fun rep => fst rep = HTTP_INTERNAL) last_words.
Proof.
  induction evs as [|ev evs IH]; intros st wq Hwq Hun Hev.
  - destruct (delete_unanswered Hun) as (last & Hd & Hl & Hall).
    exists st, wq, [], last. repeat split; auto.
  - assert (Hone : forall calls, ev = WorkerPass CNetAddr calls ->
                                 (List.length calls <= 1)%nat).
    { intros calls ->. apply Hev. now left. }
    destruct (@service_step_account st wq ev Hwq Hun Hone)
      as (st1 & wq1 & out1 & Hs & Hwq1 & Hun1 & Hacc).
    assert (Hev' : handlers_reply_once evs).
    { intros calls Hin. apply Hev. now right. }
    destruct (IH st1 wq1 Hwq1 Hun1 Hev')
      as (st2 & wq2 & out2 & last & Hr & Hwq2 & Hacc2 & Hd & Hl & Hall).
    assert (Hinc : List.length (incoming (ev :: evs))
                   = (List.length (incoming [ev]) + List.length (incoming evs))%nat).
    { destruct ev; simpl; reflexivity. }
    exists st2, wq2, (out1 ++ out2), last.
    split; [simpl; rewrite Hs; simpl; rewrite Hr; reflexivity|].
    split; [exact Hwq2|].
    split; [rewrite length_app, Hinc; lia|].
    now repeat split.
Qed.

End ServiceFacts.

(** ** More on the registry *)

Section RegistryRoutes.

Variable HTTPRequestHandler : Type.
Implicit Types (hs : list (HTTPPathHandler HTTPRequestHandler))
  (i : HTTPPathHandler HTTPRequestHandler).

(** The lookup in two lists, one after the other. *)
Lemma find_handler_app uri hs1 hs2 :
  find_handler uri (hs1 ++ hs2)
  = match find_handler uri hs1 with
    | Some None => find_handler uri hs2
    | found => found
    end.
Proof.
  induction hs1 as [|j hs1 IH]; simpl; [reflexivity|].
  destruct (handler_match_spec uri j) as (m & -> & _). simpl.
  destruct m; [|exact IH].
  now destruct (StdString.substr uri (StdString.size (prefix j)) None).
Qed.

Lemma find_handler_single uri i :
  (spec_matches uri i ->
   exists p, find_handler uri [i] = Some (Some (i, p))
             /\ uri = (prefix i ++ p)%string)
  /\ (~ spec_matches uri i -> find_handler uri [i] = Some None).
Proof.
  split; intros H.
  - destruct (matching_path uri i H) as (p & _ & Hu). exists p. split; [|exact Hu].
    apply (@find_handler_hit _ uri [] [] i p); auto.
  - apply find_handler_miss. constructor; [exact H | constructor].
Qed.

(** X7. Registering a handler never changes the route of a URI that
    already has one: the records registered before keep their priority.
    A URI that had no route gets the new handler exactly when it matches
    the new record. *)
Theorem register_keeps_existing_routes :
  forall hs (p : string) (e : bool) (h : HTTPRequestHandler) (uri : string),
    let new := {| prefix := p; exactMatch := e; handler := h |} in
    (forall found,
        find_handler uri hs = Some (Some found) ->
        find_handler uri (RegisterHTTPHandler hs p e h) = Some (Some found))
    /\ (find_handler uri hs = Some None ->
        spec_matches uri new ->
        exists sfx,
          find_handler uri (RegisterHTTPHandler hs p e h) = Some (Some (new, sfx))
          /\ uri = (p ++ sfx)%string)
    /\ (find_handler uri hs = Some None ->
        ~ spec_matches uri new ->
        find_handler uri (RegisterHTTPHandler hs p e h) = Some None).
Proof.
  intros hs p e h uri new. unfold RegisterHTTPHandler. fold new.
  rewrite find_handler_app.
  destruct (find_handler_single uri new) as [Hyes Hno].
  split; [|split].
  - intros found ->. reflexivity.
  - intros -> Hm. exact (Hyes Hm).
  - intros -> Hm. exact (Hno Hm).
Qed.

(** X8. Unregistering changes the route only of the URIs that went to
    the record removed.  With the first record of the key at [removed],
    a URI that matches an earlier record, or does not match [removed],
    goes where it went; a URI whose first match was [removed] goes on to
    the first match among the records registered after it, if any. *)
Theorem unregister_changes_only_its_routes :
  forall hs1 removed hs2 (uri : string),
    Forall (fun j => ~ same_key (prefix removed) (exactMatch removed) j) hs1 ->
    let before := hs1 ++ removed :: hs2 in
    let after := UnregisterHTTPHandler before (prefix removed) (exactMatch removed) in
    after = hs1 ++ hs2
    /\ ((exists j, In j hs1 /\ spec_matches uri j) ->
        find_handler uri after = find_handler uri before)
    /\ (~ spec_matches uri removed ->
        find_handler uri after = find_handler uri before)
    /\ (Forall (fun j => ~ spec_matches uri j) hs1 ->
        spec_matches uri removed ->
        (exists p, find_handler uri before = Some (Some (removed, p)))
        /\ find_handler uri after = find_handler uri hs2).
Proof.
  intros hs1 removed hs2 uri Hkey before after.
  assert (E : after = hs1 ++ hs2).
  { unfold after, before. apply Unregister_first; [exact Hkey|]. split; reflexivity. }
  rewrite E. unfold before. rewrite !find_handler_app.
  split; [reflexivity|split; [|split]].
  - intros (j & Hin & Hj).
    destruct (find_handler_cases uri hs1)
      as [[_ Hall] | (b & i' & a & p' & _ & _ & _ & _ & Hf)].
    + rewrite Forall_forall in Hall. exfalso. exact (Hall j Hin Hj).
    + now rewrite Hf.
  - intros Hno. destruct (find_handler uri hs1) as [[found|]|]; try reflexivity.
    change (removed :: hs2) with ([removed] ++ hs2). rewrite find_handler_app.
    now rewrite (proj2 (find_handler_single uri removed) Hno).
  - intros Hall Hyes. rewrite (find_handler_miss uri Hall).
    change (removed :: hs2) with ([removed] ++ hs2). rewrite find_handler_app.
    destruct (proj1 (find_handler_single uri removed) Hyes) as (p & Hp & _).
    rewrite Hp. split; [now exists p | reflexivity].
Qed.

End RegistryRoutes.

(** ** The allow list *)

Section AllowList.

Variable CNetAddr : Type.
Variable CSubNet : Type.
Variable IsValid : CNetAddr -> bool.
Variable Match : CSubNet -> CNetAddr -> bool.
Variable CSubNet_parse : string -> CSubNet.
Variable CSubNet_IsValid : CSubNet -> bool.

Abbreviation init_allow := (InitHTTPAllowList CSubNet_parse CSubNet_IsValid).
Abbreviation allowed := (ClientAllowed IsValid Match).

Lemma parse_allow_spec (vAllow : list string) : forall acc : list CSubNet,
  parse_allow CSubNet_parse CSubNet_IsValid vAllow acc
  = if forallb (fun s => CSubNet_IsValid (CSubNet_parse s)) vAllow
    then Some (acc ++ map CSubNet_parse vAllow)
    else None.
Proof.
  induction vAllow as [|s vAllow IH]; intros acc; simpl.
  - now rewrite app_nil_r.
  - destruct (CSubNet_IsValid (CSubNet_parse s)); simpl; [|reflexivity].
    rewrite IH, <- app_assoc. reflexivity.
Qed.

(** X9. [InitHTTPAllowList] succeeds exactly when every [-rpcallowip]
    value is a valid subnet, and the allow list is then the two loopback
    subnets followed by the configured subnets in the order given; one
    invalid value makes it fail, whatever the others are. *)
Theorem allow_list_is_loopback_then_configured :
  forall (a : Args),
    let configured := mapMultiArgs a "-rpcallowip" in
    (Forall (fun s => CSubNet_IsValid (CSubNet_parse s) = true) configured ->
     init_allow a
     = Some (CSubNet_parse "127.0.0.0/8" :: CSubNet_parse "::1"
             :: map CSubNet_parse configured))
    /\ ((exists s, In s configured /\ CSubNet_IsValid (CSubNet_parse s) = false) ->
        init_allow a = None)
    /\ (forall subnets,
           init_allow a = Some subnets ->
           Forall (fun s => CSubNet_IsValid (CSubNet_parse s) = true) configured).
Proof.
  intros a configured. unfold InitHTTPAllowList. fold configured.
  rewrite parse_allow_spec.
  destruct (forallb (fun s => CSubNet_IsValid (CSubNet_parse s)) configured) eqn:E.
  - rewrite forallb_forall in E. split; [|split].
    + intros _. reflexivity.
    + intros (s & Hin & Hs). rewrite (E s Hin) in Hs. discriminate.
    + intros subnets _. apply Forall_forall. exact E.
  - split; [|split].
    + intros Hall. rewrite Forall_forall in Hall.
      assert (forallb (fun s => CSubNet_IsValid (CSubNet_parse s)) configured = true)
        by (apply forallb_forall; exact Hall).
      congruence.
    + intros _. reflexivity.
    + intros subnets H. discriminate.
Qed.

(** X10. Once the allow list is initialised, a peer is let in exactly
    when its address is valid and it is matched by [127.0.0.0/8], by
    [::1] or by one of the configured subnets: loopback peers are always
    allowed, and configuring more subnets never shuts out a peer. *)
Theorem allowed_peers :
  forall (a : Args) (subnets : list CSubNet) (peer : CNetAddr),
    init_allow a = Some subnets ->
    (allowed subnets peer = true
     <-> IsValid peer = true
         /\ (Match (CSubNet_parse "127.0.0.0/8") peer = true
             \/ Match (CSubNet_parse "::1") peer = true
             \/ exists s, In s (mapMultiArgs a "-rpcallowip")
                           /\ Match (CSubNet_parse s) peer = true)).
Proof.
  intros a subnets peer H.
  unfold InitHTTPAllowList in H. rewrite parse_allow_spec in H.
  destruct (forallb _ _); [|discriminate]. injection H as <-.
  unfold ClientAllowed. destruct (IsValid peer); simpl.
  2:{ split; [discriminate | intros [? _]; discriminate]. }
  rewrite !orb_true_iff, existsb_exists. split.
  - intros [H|[H|(x & Hin & Hx)]]; (split; [reflexivity|]); auto.
    apply in_map_iff in Hin. destruct Hin as (s & <- & Hs). eauto.
  - intros [_ [H|[H|(s & Hs & Hm)]]]; auto.
    right; right. exists (CSubNet_parse s). split; [|exact Hm].
    apply in_map_iff. now exists s.
Qed.

End AllowList.

(** ** More on binding and initialisation *)

Lemma to_uint16_to_int_mod (z : Z) : to_uint16 (to_int z) = z mod 2 ^ 16.
Proof.
  unfold to_uint16, to_int.
  pose proof (Z.div_mod (z + 2 ^ 31) (2 ^ 32) ltac:(lia)) as H.
  set (k := (z + 2 ^ 31) / 2 ^ 32) in *.
  replace ((z + 2 ^ 31) mod 2 ^ 32 - 2 ^ 31) with (z + (- k * 2 ^ 16) * 2 ^ 16) by lia.
  apply Z_mod_plus_full.
Qed.

Section BindMore.

Variable CSubNet : Type.
Variable CSubNet_parse : string -> CSubNet.
Variable CSubNet_IsValid : CSubNet -> bool.
Variable GetArg : Args -> string -> Z -> Z.
Variable GetBoolArg : Args -> string -> bool -> bool.
Variable RPCPort : Z.
Variable SplitHostPort : string -> Z -> string -> Z * string.
Variable Net : Type.
Variable evhttp_bound_socket : Type.
Variable evhttp_bind_socket_with_handle :
  Net -> option string -> Z -> Net * option evhttp_bound_socket.
Variable HTTPWorkItem : Type.

Abbreviation State := (BindState Net evhttp_bound_socket).
Abbreviation bind_addresses :=
  (HTTPBindAddresses GetArg RPCPort SplitHostPort evhttp_bind_socket_with_handle).
Abbreviation handles := (bound_handles evhttp_bind_socket_with_handle).
Abbreviation failures := (failed_endpoints evhttp_bind_socket_with_handle).
Abbreviation init_server :=
  (InitHTTPServer CSubNet_parse CSubNet_IsValid GetArg GetBoolArg RPCPort
     SplitHostPort evhttp_bind_socket_with_handle HTTPWorkItem).

(** X11. The port of every endpoint is a 16-bit number: a port outside
    [0, 65535] is not refused but reduced modulo 65536.  Where the port
    is the configured RPC port (no [-rpcallowip], or no [-rpcbind]), the
    port bound is that value modulo 65536. *)
Theorem bound_ports_are_16_bit :
  forall (a : Args),
    let configured := GetArg a "-rpcport" RPCPort in
    let endpoints := fst (bind_endpoints SplitHostPort a (to_int configured)) in
    Forall (fun ep => 0 <= snd ep < 2 ^ 16) endpoints
    /\ (mapArgs_count a "-rpcallowip" = false \/ mapArgs_count a "-rpcbind" = false ->
        Forall (fun ep => snd ep = configured mod 2 ^ 16) endpoints).
Proof.
  intros a configured endpoints. subst endpoints. unfold bind_endpoints.
  assert (R : forall z, 0 <= to_uint16 z < 2 ^ 16).
  { intros z. unfold to_uint16. apply Z.mod_pos_bound. lia. }
  pose proof (to_uint16_to_int_mod configured) as M.
  destruct (mapArgs_count a "-rpcallowip"); simpl.
  - destruct (mapArgs_count a "-rpcbind"); simpl.
    + split.
      * apply Forall_forall. intros ep Hin. apply in_map_iff in Hin.
        destruct Hin as (i & <- & _).
        destruct (SplitHostPort i (to_int configured) "") as [port host]. simpl. apply R.
      * intros [H|H]; discriminate.
    + split; [repeat constructor; simpl; apply R|].
      intros _. repeat constructor; simpl; exact M.
  - split; [repeat constructor; simpl; apply R|].
    intros _. repeat constructor; simpl; exact M.
Qed.

Lemma bind_all_log endpoints : forall (st : State),
  log (bind_all evhttp_bind_socket_with_handle st endpoints)
  = log st ++ map (fun ep => LogBindFailed (fst ep) (snd ep))
                  (failures (net st) endpoints).
Proof.
  induction endpoints as [|[host port] rest IH]; intros st; simpl.
  - now rewrite app_nil_r.
  - destruct (evhttp_bind_socket_with_handle (net st) _ port) as [n' [s|]].
    + rewrite IH. reflexivity.
    + rewrite IH. simpl. now rewrite <- app_assoc.
Qed.

Lemma bound_or_failed endpoints : forall (n : Net),
  (List.length (handles n endpoints) + List.length (failures n endpoints)
   = List.length endpoints)%nat.
Proof.
  induction endpoints as [|[host port] rest IH]; intros n; simpl; [reflexivity|].
  destruct (evhttp_bind_socket_with_handle n _ port) as [n' [s|]]; simpl;
    rewrite <- (IH n'); lia.
Qed.

(** X12. Every endpoint is either bound or reported: the sockets bound
    are added to [boundSockets] in the order of the endpoints, each
    failed bind adds one "Binding RPC on address ... failed" line to the
    log, after the warning if there is one, and the two together account
    for all endpoints. *)
Theorem every_endpoint_bound_or_logged :
  forall (a : Args) (st : State),
    let selection := bind_endpoints SplitHostPort a (to_int (GetArg a "-rpcport" RPCPort)) in
    let st' := snd (bind_addresses a st) in
    boundSockets st' = boundSockets st ++ handles (net st) (fst selection)
    /\ log st' = log st ++ snd selection
                 ++ map (fun ep => LogBindFailed (fst ep) (snd ep))
                        (failures (net st) (fst selection))
    /\ (List.length (handles (net st) (fst selection))
        + List.length (failures (net st) (fst selection))
        = List.length (fst selection))%nat.
Proof.
  intros a st selection st'. subst st'. unfold HTTPBindAddresses. fold selection.
  destruct selection as [endpoints warning]. simpl.
  rewrite bind_all_boundSockets, bind_all_log. simpl.
  split; [reflexivity|split; [now rewrite <- app_assoc | apply bound_or_failed]].
Qed.

Lemma to_size_t_to_int_small (v : Z) :
  0 <= v < 2 ^ 31 -> to_size_t (to_int v) = v.
Proof.
  intros H. unfold to_size_t, to_int.
  rewrite (Z.mod_small (v + 2 ^ 31)) by lia.
  replace (v + 2 ^ 31 - 2 ^ 31) with v by lia.
  apply Z.mod_small. lia.
Qed.

(** X13. [InitHTTPServer] returns true exactly when every [-rpcallowip]
    value is a valid subnet, [-rpcssl] is not set, libevent gives an
    event base and an HTTP object, and [HTTPBindAddresses] returns true.
    It then leaves the allow list of loopback and configured subnets and
    a work queue that is empty, running and without workers, whose
    capacity is the [-rpcworkqueue] value, at least 1, as long as that
    value fits an [int]. *)
Theorem init_succeeds_with_a_usable_queue :
  forall (a : Args) (event_base_ok evhttp_ok : bool) (st : State),
    let configured := mapMultiArgs a "-rpcallowip" in
    let depth := Z.max (GetArg a "-rpcworkqueue" DEFAULT_HTTP_WORKQUEUE) 1 in
    ((exists ini, init_server a event_base_ok evhttp_ok st = Some ini)
     <-> Forall (fun s => CSubNet_IsValid (CSubNet_parse s) = true) configured
         /\ GetBoolArg a "-rpcssl" false = false
         /\ event_base_ok = true
         /\ evhttp_ok = true
         /\ fst (bind_addresses a st) = true)
    /\ (forall ini,
           init_server a event_base_ok evhttp_ok st = Some ini ->
           init_subnets ini
           = CSubNet_parse "127.0.0.0/8" :: CSubNet_parse "::1"
             :: map CSubNet_parse configured
           /\ boundSockets (init_bind ini) <> []
           /\ queue (init_workQueue ini) = []
           /\ running (init_workQueue ini) = true
           /\ numThreads (init_workQueue ini) = 0
           /\ maxDepth (init_workQueue ini) = to_size_t (to_int depth)
           /\ (depth < 2 ^ 31 ->
               maxDepth (init_workQueue ini) = depth
               /\ 1 <= maxDepth (init_workQueue ini))).
Proof.
  intros a event_base_ok evhttp_ok st configured depth.
  unfold InitHTTPServer, InitHTTPAllowList. fold configured.
  rewrite parse_allow_spec.
  pose proof (HTTPBindAddresses_result GetArg RPCPort SplitHostPort
                evhttp_bind_socket_with_handle a st) as Hres.
  destruct (forallb (fun s => CSubNet_IsValid (CSubNet_parse s)) configured) eqn:Ef;
    simpl.
  2:{ split.
      - split; [intros [ini H]; discriminate|].
        intros (Hall & _). rewrite Forall_forall in Hall.
        assert (forallb (fun s => CSubNet_IsValid (CSubNet_parse s)) configured = true)
          by (apply forallb_forall; exact Hall).
        congruence.
      - intros ini H. discriminate. }
  assert (Hall : Forall (fun s => CSubNet_IsValid (CSubNet_parse s) = true) configured).
  { apply Forall_forall. apply forallb_forall. exact Ef. }
  destruct (GetBoolArg a "-rpcssl" false).
  { split; [split; [intros [ini H]; discriminate | intros (_ & H & _); discriminate]|].
    intros ini H. discriminate. }
  destruct event_base_ok; simpl.
  2:{ split; [split; [intros [ini H]; discriminate | intros (_ & _ & H & _); discriminate]|].
      intros ini H. discriminate. }
  destruct evhttp_ok; simpl.
  2:{ split; [split; [intros [ini H]; discriminate
                     | intros (_ & _ & _ & H & _); discriminate]|].
      intros ini H. discriminate. }
  destruct (bind_addresses a st) as [bound st'] eqn:Eb. simpl in *.
  destruct bound; simpl.
  - split.
    + split; [intros _; repeat split; auto | intros _; eexists; reflexivity].
    + intros ini H. injection H as <-. simpl.
      split; [reflexivity|]. split; [now apply Hres|].
      repeat (split; [reflexivity|]).
      intros Hd. rewrite to_size_t_to_int_small by (unfold depth in *; lia).
      split; [reflexivity | unfold depth; lia].
  - split.
    + split; [intros [ini H]; discriminate | intros (_ & _ & _ & _ & H); discriminate].
    + intros ini H. discriminate.
Qed.

End BindMore.

(** ** The shutdown window *)

Section LifecycleFacts.

Variable CNetAddr : Type.
Variable CSubNet : Type.
Variable IsValid : CNetAddr -> bool.
Variable Match : CSubNet -> CNetAddr -> bool.
Variable HTTPRequestHandler : Type.
Variable evhttp_bound_socket : Type.
Variable same_socket : evhttp_bound_socket -> evhttp_bound_socket -> bool.
Variable evhttp_error_body : Z -> string.

Abbreviation Server := (HTTPServer CNetAddr CSubNet HTTPRequestHandler evhttp_bound_socket).
Abbreviation interrupt := (@InterruptHTTPServer CNetAddr CSubNet HTTPRequestHandler
                             evhttp_bound_socket same_socket).
Abbreviation del_all := (@del_accept_sockets evhttp_bound_socket same_socket).

(** Handles are pointers: two are the same when they are equal. *)
Hypothesis same_socket_spec : forall a b, same_socket a b = true <-> a = b.

Lemma on_list (s : evhttp_bound_socket) (l : list evhttp_bound_socket) :
  existsb (same_socket s) l = true <-> In s l.
Proof.
  rewrite existsb_exists. split.
  - intros (x & Hx & E). apply same_socket_spec in E. now subst.
  - intros H. exists s. split; [exact H | now apply same_socket_spec].
Qed.

Lemma remove_socket_In (s : evhttp_bound_socket) (l : list evhttp_bound_socket) :
  NoDup l ->
  forall x, In x (remove_socket same_socket s l) <-> In x l /\ x <> s.
Proof.
  induction 1 as [|y l Hy Hl IH]; intros x; simpl; [tauto|].
  destruct (same_socket s y) eqn:E.
  - apply same_socket_spec in E. subst y. split.
    + intros H. split; [now right|]. intros ->. contradiction.
    + intros [[H|H] Hne]; [congruence | exact H].
  - assert (Hne : s <> y).
    { intros ->. assert (same_socket y y = true) by now apply same_socket_spec.
      congruence. }
    simpl. rewrite IH. split.
    + intros [H|[H Hx]]; [subst x; split; [now left | congruence] |].
      split; [now right | exact Hx].
    + intros [[H|H] Hx]; [now left | right; split; assumption].
Qed.

Lemma remove_socket_NoDup (s : evhttp_bound_socket) (l : list evhttp_bound_socket) :
  NoDup l -> NoDup (remove_socket same_socket s l).
Proof.
  intros Hl. pose proof (remove_socket_In s Hl) as Hin. revert Hin.
  induction Hl as [|y l Hy Hl IH]; simpl; [constructor|].
  destruct (same_socket s y); intros Hin; [exact Hl|].
  constructor.
  - intros H. apply Hy. apply (remove_socket_In s Hl) in H. tauto.
  - apply IH. exact (remove_socket_In s Hl).
Qed.

(** The loop succeeds on distinct handles that are all on the list, and
    takes exactly these off it. *)
Lemma del_accept_sockets_spec (sockets : list evhttp_bound_socket) :
  forall http,
    NoDup (accepting http) ->
    NoDup sockets ->
    incl sockets (accepting http) ->
    exists http',
      del_all sockets http = Some http'
      /\ gencb http' = gencb http
      /\ forall x, In x (accepting http')
                   <-> In x (accepting http) /\ ~ In x sockets.
Proof.
  induction sockets as [|s sockets IH]; intros http Hacc Hnd Hincl.
  - exists http. simpl. repeat split; tauto.
  - simpl. unfold evhttp_del_accept_socket.
    assert (Hs : In s (accepting http)) by (apply Hincl; now left).
    rewrite (proj2 (on_list s (accepting http)) Hs). simpl.
    inversion Hnd as [|s' l' Hnot Hnd']; subst.
    destruct (IH {| gencb := gencb http;
                    accepting := remove_socket same_socket s (accepting http) |})
      as (http' & Hd & Hg & Hin).
    + simpl. now apply remove_socket_NoDup.
    + exact Hnd'.
    + intros x Hx. simpl. apply (remove_socket_In s Hacc). split.
      * apply Hincl. now right.
      * intros ->. contradiction.
    + exists http'. split; [exact Hd|]. split; [exact Hg|].
      intros x. rewrite Hin. simpl. rewrite (remove_socket_In s Hacc). split.
      * intros [[H1 H2] H3]. split; [exact H1|]. intros [E|H]; [congruence | tauto].
      * intros [H1 H2]. split; [split; [exact H1|] |].
        -- intros ->. apply H2. now left.
        -- intros H. apply H2. now right.
Qed.

(** X14. [InterruptHTTPServer], called on a server whose [boundSockets]
    are distinct handles its [evhttp] object accepts on, takes exactly
    these off the object and installs the reject callback.  A request
    that still arrives is answered 503 and never reaches the ACL, the
    registry or the work queue: the allow list and the handlers are as
    they were, the work queue is interrupted and its contents untouched.
    [boundSockets] is left as it was, so a second call would hand
    libevent handles the first call has freed. *)
Theorem interrupted_server_rejects :
  forall (srv : Server) (http : evhttp evhttp_bound_socket)
         (r : evhttp_request CNetAddr),
    eventHTTP srv = Some http ->
    NoDup (accepting http) ->
    NoDup (bound srv) ->
    incl (bound srv) (accepting http) ->
    exists srv' http',
      interrupt srv = Some srv'
      /\ eventHTTP srv' = Some http'
      /\ gencb http' = use_http_reject_request_cb
      /\ (forall s, In s (accepting http')
                    <-> In s (accepting http) /\ ~ In s (bound srv))
      /\ bound srv' = bound srv
      /\ deliver IsValid Match evhttp_error_body srv' r
         = Some (srv', [(HTTP_SERVUNAVAIL, evhttp_error_body HTTP_SERVUNAVAIL)])
      /\ rpc_allow_subnets (module srv') = rpc_allow_subnets (module srv)
      /\ pathHandlers (module srv') = pathHandlers (module srv)
      /\ (forall wq,
             workQueue (module srv) = Some wq ->
             workQueue (module srv') = Some (Interrupt wq)
             /\ queue (Interrupt wq) = queue wq
             /\ running (Interrupt wq) = false)
      /\ (bound srv <> [] -> interrupt srv' = None).
Proof.
  intros srv http r Hhttp Hacc Hnd Hincl.
  destruct (@del_accept_sockets_spec (bound srv) http Hacc Hnd Hincl)
    as (h & Hd & Hg & Hin).
  unfold InterruptHTTPServer. rewrite Hhttp, Hd. simpl.
  eexists. exists (evhttp_set_gencb h use_http_reject_request_cb).
  split; [reflexivity|]. split; [reflexivity|]. split; [reflexivity|].
  split; [exact Hin|]. split; [reflexivity|].
  split; [reflexivity|].
  split; [destruct (workQueue (module srv)); reflexivity|].
  split; [destruct (workQueue (module srv)); reflexivity|].
  split.
  - intros wq Hwq. rewrite Hwq. repeat split; reflexivity.
  - intros Hne. destruct (bound srv) as [|b rest] eqn:Eb; [contradiction|].
    simpl. unfold evhttp_del_accept_socket. simpl.
    assert (Hb : existsb (same_socket b) (accepting h) = false).
    { destruct (existsb (same_socket b) (accepting h)) eqn:E; [|reflexivity].
      apply on_list, Hin in E. exfalso. apply (proj2 E). now left. }
    rewrite Hb. reflexivity.
Qed.

End LifecycleFacts.

(** ** More on the scheduler *)

(** ** The statements above on concrete inputs *)

Lemma every_request_gets_one_reply_witness :
  exists st' wq' out last_words,
    service Concrete.IsValid Concrete.Match (Concrete.module_state 2)
      ConcreteMore.events = Some (st', out)
    /\ workQueue st' = Some wq'
    /\ (List.length out + List.length (queue wq')
        = List.length (incoming ConcreteMore.events)
          + List.length (queue (WorkQueue_new (HTTPWorkItem nat nat) 2%Z)))%nat
    /\ HTTPWorkQueue_destroy wq' = Some last_words
    /\ List.length last_words = List.length (queue wq')
    /\ Forall (fun rep => fst rep = HTTP_INTERNAL) last_words.
Proof.
  apply (@every_request_gets_one_reply nat (list nat) Concrete.IsValid
           Concrete.Match nat ConcreteMore.events (Concrete.module_state 2)
           (WorkQueue_new _ 2)).
  - reflexivity.
  - constructor.
  - intros calls [H|[H|[H|[H|[]]]]]; try discriminate.
    injection H as <-. simpl. lia.
Defined.

Lemma unregister_changes_only_its_routes_witness :
  UnregisterHTTPHandler
    [Concrete.rest_handler; Concrete.root_handler; Concrete.any_handler]
    "/" true
  = [Concrete.rest_handler; Concrete.any_handler].
Proof.
  apply (@unregister_changes_only_its_routes nat [Concrete.rest_handler]
           Concrete.root_handler [Concrete.any_handler] "/"%string).
  constructor; [|constructor]. intros [_ H]. discriminate H.
Defined.

Lemma allowed_peers_witness :
  ClientAllowed Concrete.IsValid Concrete.Match
    [[1%nat]; [2%nat]; [10%nat; 11%nat]] 11%nat = true
  <-> Concrete.IsValid 11%nat = true
      /\ (Concrete.Match (ConcreteMore.parse "127.0.0.0/8") 11%nat = true
          \/ Concrete.Match (ConcreteMore.parse "::1") 11%nat = true
          \/ exists s, In s (mapMultiArgs (ConcreteBind.args ["10.0.0.0/8"%string] [])
                                          "-rpcallowip")
                        /\ Concrete.Match (ConcreteMore.parse s) 11%nat = true).
Proof.
  apply (@allowed_peers nat (list nat) Concrete.IsValid Concrete.Match
           ConcreteMore.parse ConcreteMore.valid
           (ConcreteBind.args ["10.0.0.0/8"%string] [])).
  reflexivity.
Defined.

Lemma interrupted_server_rejects_witness :
  exists srv',
    InterruptHTTPServer Nat.eqb ConcreteMore.server = Some srv'
    /\ deliver Concrete.IsValid Concrete.Match ConcreteMore.error_body srv'
         (Concrete.request EVHTTP_REQ_POST "/" 1)
       = Some (srv', [(HTTP_SERVUNAVAIL, ConcreteMore.error_body HTTP_SERVUNAVAIL)])
    /\ InterruptHTTPServer Nat.eqb srv' = None.
Proof.
  destruct (@interrupted_server_rejects nat (list nat) Concrete.IsValid
              Concrete.Match nat nat Nat.eqb ConcreteMore.error_body
              Nat.eqb_eq ConcreteMore.server
              {| gencb := use_http_request_cb;
                 accepting := [0%nat; 1%nat; 2%nat] |}
              (Concrete.request EVHTTP_REQ_POST "/" 1) eq_refl)
    as (srv' & http' & Hi & _ & _ & _ & _ & Hd & _ & _ & _ & Hagain).
  - repeat constructor; simpl; intuition discriminate.
  - repeat constructor; simpl; intuition discriminate.
  - intros x [<-|[<-|[]]]; simpl; auto.
  - exists srv'. split; [exact Hi|]. split; [exact Hd|].
    apply Hagain. discriminate.
Defined.

Module SchedulerMore.
Import Scheduler SchedulerInfo SchedulerFacts.
Open Scope Z_scope.

Section Order.

Variable UserFn : Type.
Variable BOOST_VERSION : Z.

Implicit Types (w : World UserFn) (q : TaskQueue UserFn) (f : Task UserFn).

Lemma insert_sorted (t : time_point) f q :
  sorted_by_key q -> sorted_by_key (insert t f q).
Proof.
  unfold sorted_by_key. induction q as [|[t' f'] q IH]; simpl; intros H.
  - repeat constructor.
  - inversion H as [|a l Hs Hall]; subst a l.
    destruct (Z.ltb_spec t t').
    + simpl. constructor; [exact H|].
      constructor; [lia|]. eapply Forall_impl; [|exact Hall]. simpl. intros; lia.
    + simpl. constructor; [now apply IH|].
      assert (P : Permutation (map fst (insert t f q)) (t :: map fst q)).
      { apply (Permutation_map fst (insert_perm t f q)). }
      apply (Permutation_Forall (Permutation_sym P)).
      constructor; [lia | exact Hall].
Qed.

Lemma transition_sorted w w' :
  transition BOOST_VERSION w w' ->
  sorted_by_key (taskQueue (sched w)) -> sorted_by_key (taskQueue (sched w')).
Proof.
  intros [Eq _ _ _ _ | t f Eq _ _ _ _ _ _ _ | i t0 t f rest _ _ Eq Eq' _ _ _ _] H.
  - now rewrite Eq.
  - rewrite Eq. now apply insert_sorted.
  - rewrite Eq in H. rewrite Eq'. unfold sorted_by_key in *. simpl in H.
    now inversion H.
Qed.

Lemma reachable_sorted w0 w :
  reachable BOOST_VERSION w0 w ->
  sorted_by_key (taskQueue (sched w0)) -> sorted_by_key (taskQueue (sched w)).
Proof.
  induction 1 as [|w w' _ IH T]; intros H0; [exact H0|].
  eapply transition_sorted; eauto.
Qed.

Lemma run_sorted (t0 : time_point) (es : list (Event UserFn)) w :
  run BOOST_VERSION (World_new t0) es = Some w ->
  sorted_by_key (taskQueue (sched w)).
Proof.
  intros H. eapply reachable_sorted.
  - eapply run_reachable. exact H.
  - constructor.
Qed.

(** X15. The queue is always in the order of its keys, and the task a
    service thread takes is the one with the smallest key: whenever a
    timed-out wait ends in a call, no task left in the queue has an
    earlier key than the task called. *)
Theorem earliest_task_is_taken :
  forall (t0 : time_point) (es : list (Event UserFn)) w,
    run BOOST_VERSION (World_new t0) es = Some w ->
    sorted_by_key (taskQueue (sched w))
    /\ forall i w' v,
         step BOOST_VERSION w (Timeout i) = Some w' ->
         trace w' = v :: trace w ->
         forall e, In e (taskQueue (sched w')) -> inv_key v <= fst e.
Proof.
  intros t0 es w H. pose proof (run_sorted _ _ H) as Hs. split; [exact Hs|].
  intros i w' v Hstep Htr e Hin.
  apply step_transition in Hstep.
  destruct Hstep as [_ Etr _ _ _ | t f _ _ _ _ _ Etr _ _
                    | j t1 t f rest _ _ Eq Eq' Etr _ _ _].
  - rewrite Etr in Htr. exfalso.
    apply (f_equal (@List.length _)) in Htr. simpl in Htr. lia.
  - rewrite Etr in Htr. exfalso.
    apply (f_equal (@List.length _)) in Htr. simpl in Htr. lia.
  - rewrite Etr in Htr. injection Htr as <-. simpl.
    unfold sorted_by_key in Hs. rewrite Eq in Hs. simpl in Hs.
    inversion Hs as [|a l _ Hall]; subst a l.
    rewrite Forall_forall in Hall. apply Hall. rewrite Eq' in Hin.
    apply in_map_iff. now exists e.
Qed.

Lemma last_key_bounds q : forall d,
  StronglySorted Z.le (d :: map fst q) ->
  d <= last_key q d
  /\ (forall e, In e q -> fst e <= last_key q d)
  /\ (last_key q d = d \/ exists e, In e q /\ fst e = last_key q d).
Proof.
  induction q as [|[t f] q IH]; intros d H; simpl.
  - split; [lia|]. split; [intros e []|now left].
  - inversion H as [|a l Hs Hall]; subst a l.
    inversion Hall as [|a l Hdt _]; subst a l.
    destruct (IH t Hs) as (H1 & H2 & H3).
    split; [lia|]. split.
    + intros e [<-|Hin]; [exact H1 | now apply H2].
    + right. destruct H3 as [E|(e & Hin & E)].
      * exists (t, f). split; [now left | simpl; congruence].
      * exists e. split; [now right | exact E].
Qed.

(** X16. [getQueueInfo] returns the number of queued tasks and sets
    [first] and [last] to the smallest and the largest key in the queue,
    both keys of queued tasks; with an empty queue it returns 0 and
    leaves [first] and [last] as they were. *)
Theorem queue_info_is_count_and_key_range :
  forall (t0 : time_point) (es : list (Event UserFn)) w (first last : time_point),
    run BOOST_VERSION (World_new t0) es = Some w ->
    let '(n, first', last') := getQueueInfo (sched w) first last in
    n = Z.of_nat (List.length (taskQueue (sched w)))
    /\ (taskQueue (sched w) = [] -> n = 0 /\ first' = first /\ last' = last)
    /\ (forall e, In e (taskQueue (sched w)) -> first' <= fst e <= last')
    /\ (taskQueue (sched w) <> [] ->
        (exists e, In e (taskQueue (sched w)) /\ fst e = first')
        /\ (exists e, In e (taskQueue (sched w)) /\ fst e = last')).
Proof.
  intros t0 es w first last H. pose proof (run_sorted _ _ H) as Hs.
  unfold getQueueInfo, sorted_by_key in *.
  destruct (taskQueue (sched w)) as [|[t f] q] eqn:Eq.
  - split; [reflexivity|]. split; [auto|]. split; [intros e0 []|].
    intros Hne. now exfalso.
  - simpl in Hs. destruct (last_key_bounds q Hs) as (H1 & H2 & H3).
    inversion Hs as [|a l _ Hall]; subst a l. rewrite Forall_forall in Hall.
    split; [reflexivity|]. split; [discriminate|]. split.
    + intros e [<-|Hin]; simpl.
      * lia.
      * split; [apply Hall, in_map_iff; now exists e | now apply H2].
    + intros _. split.
      * exists (t, f). split; [now left | reflexivity].
      * simpl. destruct H3 as [E|(e & Hin & E)].
        -- exists (t, f). split; [now left | simpl; congruence].
        -- exists e. split; [now right | exact E].
Qed.

End Order.

Section Stopping.

Variable UserFn : Type.
Variable BOOST_VERSION : Z.

Implicit Types (w : World UserFn) (ts : ThreadState UserFn).

Abbreviation head := (@loop_head UserFn BOOST_VERSION).

Lemma loop_head_flags w i :
  stopRequested (sched (head w i)) = stopRequested (sched w)
  /\ stopWhenEmpty (sched (head w i)) = stopWhenEmpty (sched w)
  /\ trace (head w i) = trace w
  /\ taskQueue (sched (head w i)) = taskQueue (sched w).
Proof.
  unfold loop_head. destruct (shouldStop (sched w)); simpl;
    [repeat split; reflexivity|].
  destruct (taskQueue (sched w)) as [|[t f] rest] eqn:E; simpl; rewrite ?E;
    repeat split; reflexivity.
Qed.

Lemma step_after_stop w e w' :
  stopRequested (sched w) = true ->
  step BOOST_VERSION w e = Some w' ->
  stopRequested (sched w') = true /\ trace w' = trace w.
Proof.
  intros Hs.
  destruct e as [d| |i|i|i|i|u t|u delta|u delta|drain]; simpl.
  - destruct (0 <=? d); [|discriminate]. intros H; injection H as <-. auto.
  - intros H; injection H as <-.
    match goal with |- context [loop_head _ ?w0 ?j] =>
      destruct (loop_head_flags w0 j) as (E1 & _ & E2 & _) end.
    rewrite E1, E2. auto.
  - destruct (nth_error (threads w) i) as [[| |t|v|]|]; try discriminate;
      intros H; injection H as <-;
      destruct (loop_head_flags w i) as (E1 & _ & E2 & _); rewrite E1, E2; auto.
  - destruct (nth_error (threads w) i) as [[| |t|v|]|]; try discriminate.
    destruct (t <=? now w); [|discriminate]. intros H; injection H as <-.
    unfold after_timeout, shouldStop. rewrite Hs. simpl.
    destruct (loop_head_flags w i) as (E1 & _ & E2 & _). rewrite E1, E2. auto.
  - destruct (nth_error (threads w) i) as [[| |t|v|]|]; try discriminate.
    intros H; injection H as <-.
    destruct (task_fn (inv_task v)); simpl; auto.
  - destruct (nth_error (threads w) i) as [[| |t|v|]|]; try discriminate;
      intros H; injection H as <-; simpl; auto.
  - intros H; injection H as <-. simpl. auto.
  - intros H; injection H as <-. simpl. auto.
  - intros H; injection H as <-. simpl. auto.
  - intros H; injection H as <-. simpl. rewrite Hs. destruct drain; auto.
Qed.

(** X17. After [stop(false)] no task is called any more, whatever is
    queued, whatever is scheduled afterwards and however long the
    threads keep running: the trace of calls stays as it was at the
    call of [stop]. *)
Theorem nothing_is_called_after_stop :
  forall w (es : list (Event UserFn)) w',
    run BOOST_VERSION (set_sched w (stop (sched w) false)) es = Some w' ->
    trace w' = trace w /\ stopRequested (sched w') = true.
Proof.
  intros w es w'.
  assert (G : forall es w1 w2,
             stopRequested (sched w1) = true ->
             run BOOST_VERSION w1 es = Some w2 ->
             trace w2 = trace w1 /\ stopRequested (sched w2) = true).
  { clear. induction es as [|e es IH]; intros w1 w2 Hs H; simpl in H.
    - injection H as <-. auto.
    - destruct (step BOOST_VERSION w1 e) as [w1'|] eqn:E; [|discriminate].
      simpl in H. destruct (step_after_stop w1 e Hs E) as [Hs' Ht].
      destruct (IH _ _ Hs' H) as [Ht2 Hs2]. split; [congruence | exact Hs2]. }
  intros H.
  exact (G es (set_sched w (stop (sched w) false)) w' eq_refl H).
Qed.

Lemma loop_head_threads w j :
  exists ts,
    threads (head w j) = update j ts (threads w)
    /\ (ts = Exited -> shouldStop (sched w) = true).
Proof.
  unfold loop_head. destruct (shouldStop (sched w)); simpl.
  - exists Exited. auto.
  - destruct (taskQueue (sched w)) as [|[t f] rest]; simpl;
      eexists; (split; [reflexivity | discriminate]).
Qed.

Lemma should_stop_when_draining (s : CScheduler UserFn) :
  stopRequested s = false -> shouldStop s = true ->
  taskQueue s = [] /\ stopWhenEmpty s = true.
Proof.
  unfold shouldStop. intros ->. simpl. intros H.
  apply andb_true_iff in H. destruct H as [H1 H2].
  split; [|exact H1]. now destruct (taskQueue s).
Qed.

Lemma exited_by_update (l : list (ThreadState UserFn)) j ts i :
  nth_error (update j ts l) i = Some Exited ->
  nth_error l i <> Some Exited ->
  ts = Exited.
Proof.
  intros H Hn. apply nth_error_update_inv in H. destruct H as [E|E]; [auto | contradiction].
Qed.

(** X18. With [stop(true)] alone the queue is drained: as long as
    [stop(false)] has not been called, a service thread leaves the loop
    (other than by an exception) only when [stop(true)] was called and
    the queue is empty at that moment. *)
Theorem draining_thread_leaves_on_empty_queue :
  forall w (e : Event UserFn) w' (i : nat),
    stopRequested (sched w) = false ->
    step BOOST_VERSION w e = Some w' ->
    (forall j, e <> Throw j) ->
    nth_error (threads w) i <> Some Exited ->
    nth_error (threads w') i = Some Exited ->
    taskQueue (sched w) = [] /\ stopWhenEmpty (sched w) = true.
Proof.
  intros w e w' i Hs Hstep Hthrow Hold Hnew.
  destruct e as [d| |j|j|j|j|u t|u delta|u delta|drain]; simpl in Hstep.
  - destruct (0 <=? d); [|discriminate]. injection Hstep as <-. simpl in Hnew.
    contradiction.
  - injection Hstep as <-.
    match type of Hnew with context [loop_head _ ?w0 ?j] =>
      destruct (loop_head_threads w0 j) as (ts & Eth & Hts) end.
    rewrite Eth in Hnew. simpl in Hnew. rewrite update_last in Hnew.
    assert (E : ts = Exited).
    { destruct (Nat.lt_ge_cases i (List.length (threads w))) as [Hlt|Hge].
      - rewrite nth_error_app1 in Hnew by exact Hlt. contradiction.
      - rewrite nth_error_app2 in Hnew by exact Hge.
        destruct (i - List.length (threads w))%nat as [|k]; simpl in Hnew.
        + congruence.
        + destruct k; discriminate. }
    apply Hts in E. now apply should_stop_when_draining in E.
  - destruct (nth_error (threads w) j) as [[| |t|v|]|]; try discriminate;
      injection Hstep as <-;
      destruct (loop_head_threads w j) as (ts & Eth & Hts);
      rewrite Eth in Hnew; apply exited_by_update in Hnew; auto;
      apply Hts in Hnew; now apply should_stop_when_draining in Hnew.
  - destruct (nth_error (threads w) j) as [[| |t|v|]|]; try discriminate.
    destruct (t <=? now w); [|discriminate]. injection Hstep as <-.
    unfold after_timeout in Hnew.
    destruct (shouldStop (sched w) || empty (taskQueue (sched w))) eqn:Eo.
    + destruct (loop_head_threads w j) as (ts & Eth & Hts).
      rewrite Eth in Hnew. apply exited_by_update in Hnew; auto.
      apply Hts in Hnew. now apply should_stop_when_draining in Hnew.
    + destruct (taskQueue (sched w)) as [|[t1 f1] rest]; simpl in Hnew.
      * contradiction.
      * apply exited_by_update in Hnew; auto. discriminate.
  - destruct (nth_error (threads w) j) as [[| |t|v|]|]; try discriminate.
    injection Hstep as <-.
    destruct (task_fn (inv_task v)); simpl in Hnew;
      apply exited_by_update in Hnew; auto; discriminate.
  - exfalso. now apply (Hthrow j).
  - injection Hstep as <-. simpl in Hnew. contradiction.
  - injection Hstep as <-. simpl in Hnew. contradiction.
  - injection Hstep as <-. simpl in Hnew. contradiction.
  - injection Hstep as <-. simpl in Hnew. contradiction.
Qed.

(** *** Attendance *)

Lemma count_servicing_cons ts (l : list (ThreadState UserFn)) :
  count_servicing (ts :: l) = one_if (servicing ts) + count_servicing l.
Proof.
  unfold count_servicing. cbn [filter].
  destruct (servicing ts); cbn [List.length one_if]; lia.
Qed.

Lemma count_servicing_snoc (l : list (ThreadState UserFn)) ts :
  count_servicing (l ++ [ts]) = count_servicing l + one_if (servicing ts).
Proof.
  unfold count_servicing. rewrite filter_app, length_app. cbn [filter].
  destruct (servicing ts); cbn [List.length one_if]; lia.
Qed.

Lemma count_servicing_update (l : list (ThreadState UserFn)) i old new :
  nth_error l i = Some old ->
  count_servicing (update i new l)
  = count_servicing l - one_if (servicing old) + one_if (servicing new).
Proof.
  revert i. induction l as [|x l IH]; intros [|i] H; simpl in H; try discriminate.
  - injection H as ->. simpl update. rewrite !count_servicing_cons. lia.
  - simpl update. rewrite !count_servicing_cons, (IH _ H). lia.
Qed.

Lemma loop_head_attendance w i old :
  nth_error (threads w) i = Some old ->
  servicing old = true ->
  nThreadsServicingQueue (sched (head w i)) - count_servicing (threads (head w i))
  = nThreadsServicingQueue (sched w) - count_servicing (threads w).
Proof.
  intros Hi Hold. unfold loop_head. destruct (shouldStop (sched w)); simpl.
  - rewrite (count_servicing_update _ _ Exited Hi), Hold. simpl. lia.
  - destruct (taskQueue (sched w)) as [|[t f] rest]; simpl;
      rewrite (count_servicing_update _ _ _ Hi), Hold; simpl; lia.
Qed.

Lemma step_attendance w e w' :
  step BOOST_VERSION w e = Some w' -> attendance w -> attendance w'.
Proof.
  unfold attendance. intros Hstep Hw.
  destruct e as [d| |j|j|j|j|u t|u delta|u delta|drain]; simpl in Hstep.
  - destruct (0 <=? d); [|discriminate]. now injection Hstep as <-.
  - injection Hstep as <-.
    match goal with |- context [loop_head _ ?w0 ?j] =>
      assert (Hi : nth_error (threads w0) j = Some Ready);
      [|pose proof (@loop_head_attendance w0 j Ready Hi eq_refl) as L] end.
    { simpl. rewrite nth_error_app2 by lia. now rewrite Nat.sub_diag. }
    simpl in L. rewrite count_servicing_snoc in L. simpl in L. lia.
  - destruct (nth_error (threads w) j) as [[| |t|v|]|] eqn:Ej; try discriminate;
      injection Hstep as <-;
      pose proof (@loop_head_attendance w j _ Ej eq_refl); lia.
  - destruct (nth_error (threads w) j) as [[| |t|v|]|] eqn:Ej; try discriminate.
    destruct (t <=? now w); [|discriminate]. injection Hstep as <-.
    unfold after_timeout.
    destruct (shouldStop (sched w) || empty (taskQueue (sched w))).
    + pose proof (@loop_head_attendance w j _ Ej eq_refl). lia.
    + destruct (taskQueue (sched w)) as [|[t1 f1] rest]; simpl; [exact Hw|].
      rewrite (count_servicing_update _ _ _ Ej). simpl. lia.
  - destruct (nth_error (threads w) j) as [[| |t|v|]|] eqn:Ej; try discriminate.
    injection Hstep as <-.
    destruct (task_fn (inv_task v)); simpl;
      rewrite (count_servicing_update _ _ _ Ej); simpl; lia.
  - destruct (nth_error (threads w) j) as [[| |t|v|]|] eqn:Ej; try discriminate;
      injection Hstep as <-; simpl;
      rewrite (count_servicing_update _ _ _ Ej); simpl; lia.
  - now injection Hstep as <-.
  - now injection Hstep as <-.
  - now injection Hstep as <-.
  - injection Hstep as <-. simpl. exact Hw.
Qed.

(** X19. [nThreadsServicingQueue] is at every moment the number of
    threads that have called [serviceQueue] and not left it, whether
    they leave by the end of the loop or by an exception; so the
    assertion in the destructor holds exactly when every such thread has
    left. *)
Theorem service_thread_count_is_exact :
  forall (t0 : time_point) (es : list (Event UserFn)) w,
    run BOOST_VERSION (World_new t0) es = Some w ->
    nThreadsServicingQueue (sched w) = count_servicing (threads w)
    /\ (CScheduler_destroy (sched w) = Some tt
        <-> Forall (fun ts => ts = Exited) (threads w)).
Proof.
  intros t0 es w H.
  assert (A : attendance w).
  { assert (G : forall es w1 w2,
               attendance w1 -> run BOOST_VERSION w1 es = Some w2 -> attendance w2).
    { clear. induction es as [|e es IH]; intros w1 w2 H1 H; simpl in H.
      - now injection H as <-.
      - destruct (step BOOST_VERSION w1 e) as [w1'|] eqn:E; [|discriminate].
        simpl in H. eapply IH; [|exact H]. eapply step_attendance; eauto. }
    eapply G; [|exact H]. reflexivity. }
  split; [exact A|].
  unfold CScheduler_destroy. rewrite A. clear.
  induction (threads w) as [|ts l IH].
  - simpl. split; [constructor | reflexivity].
  - rewrite count_servicing_cons.
    assert (P : 0 <= count_servicing l) by (unfold count_servicing; lia).
    destruct ts; simpl one_if.
    all: try (split; [intros Hd; destruct (Z.eqb_spec (1 + count_servicing l) 0);
                        [lia | discriminate]
                     | intros Hall; inversion Hall; discriminate]).
    split.
    + intros Hd. constructor; [reflexivity|]. apply IH. exact Hd.
    + intros Hall. inversion Hall; subst. apply IH. assumption.
Qed.

End Stopping.
Lemma earliest_task_is_taken_witness :
  exists w,
    run 105000 (World_new 0) ConcreteScheduler.out_of_order = Some w
    /\ sorted_by_key (taskQueue (sched w)).
Proof.
  destruct (run 105000 (World_new 0) ConcreteScheduler.out_of_order) as [w|] eqn:E.
  - exists w. split; [reflexivity|].
    exact (proj1 (@earliest_task_is_taken string 105000 0
                    ConcreteScheduler.out_of_order w E)).
  - vm_compute in E. discriminate E.
Defined.

Lemma queue_info_is_count_and_key_range_witness :
  exists w,
    run 105000 (World_new 0) ConcreteScheduler.out_of_order = Some w
    /\ let '(n, first', last') := getQueueInfo (sched w) 0 0 in
       n = Z.of_nat (List.length (taskQueue (sched w)))
       /\ (taskQueue (sched w) = [] -> n = 0 /\ first' = 0 /\ last' = 0)
       /\ (forall e, In e (taskQueue (sched w)) -> first' <= fst e <= last')
       /\ (taskQueue (sched w) <> [] ->
           (exists e, In e (taskQueue (sched w)) /\ fst e = first')
           /\ (exists e, In e (taskQueue (sched w)) /\ fst e = last')).
Proof.
  destruct (run 105000 (World_new 0) ConcreteScheduler.out_of_order) as [w|] eqn:E.
  - exists w. split; [reflexivity|].
    exact (@queue_info_is_count_and_key_range string 105000 0
             ConcreteScheduler.out_of_order w 0 0 E).
  - vm_compute in E. discriminate E.
Defined.

Lemma nothing_is_called_after_stop_witness :
  exists w',
    run 105000 (set_sched (World_new 0) (stop (sched (World_new 0)) false))
      ConcreteScheduler.after_stop = Some w'
    /\ trace w' = trace (World_new 0) /\ stopRequested (sched w') = true.
Proof.
  destruct (run 105000 (set_sched (World_new 0) (stop (sched (World_new 0)) false))
              ConcreteScheduler.after_stop) as [w|] eqn:E.
  - exists w. split; [reflexivity|].
    exact (@nothing_is_called_after_stop string 105000 (World_new 0) _ w E).
  - vm_compute in E. discriminate E.
Defined.

Lemma draining_thread_leaves_on_empty_queue_witness :
  taskQueue (sched ConcreteScheduler.draining) = []
  /\ stopWhenEmpty (sched ConcreteScheduler.draining) = true.
Proof.
  apply (@draining_thread_leaves_on_empty_queue string 105000
           ConcreteScheduler.draining (Resume 0)
           (loop_head 105000 ConcreteScheduler.draining 0) 0%nat).
  - reflexivity.
  - reflexivity.
  - intros j H. discriminate H.
  - intros H. discriminate H.
  - reflexivity.
Defined.

Lemma service_thread_count_is_exact_witness :
  exists w,
    run 105000 (World_new 0) ConcreteScheduler.out_of_order = Some w
    /\ nThreadsServicingQueue (sched w) = count_servicing (threads w).
Proof.
  destruct (run 105000 (World_new 0) ConcreteScheduler.out_of_order) as [w|] eqn:E.
  - exists w. split; [reflexivity|].
    exact (proj1 (@service_thread_count_is_exact string 105000 0
                    ConcreteScheduler.out_of_order w E)).
  - vm_compute in E. discriminate E.
Defined.

End SchedulerMore.

Module RpcNetFacts.
Import RpcNet.
Open Scope string_scope.

Lemma existsb_eqb_In (n : string) (l : list string) :
  existsb (String.eqb n) l = true <-> In n l.
Proof.
  rewrite existsb_exists. split.
  - intros [x [Hx He]]. apply String.eqb_eq in He. now subst.
  - intros H. exists n. split; [assumption | apply String.eqb_refl].
Qed.

Lemma existsb_eqb_not_In (n : string) (l : list string) :
  existsb (String.eqb n) l = false <-> ~ In n l.
Proof.
  rewrite <- existsb_eqb_In. destruct (existsb (String.eqb n) l); split; intros H;
    try discriminate; try reflexivity; try (intros H'; discriminate).
  exfalso. now apply H.
Qed.

Lemma erase_first_In (n m : string) (l : list string) :
  In m (erase_first n l) -> In m l.
Proof.
  induction l as [|s l IH]; simpl; [tauto|].
  destruct (String.eqb n s); simpl; intuition.
Qed.

Lemma erase_first_NoDup (n : string) (l : list string) :
  NoDup l -> NoDup (erase_first n l).
Proof.
  induction 1 as [|s l Hs Hl IH]; simpl; [constructor|].
  destruct (String.eqb n s); [assumption|].
  constructor; [|assumption]. intros H. apply Hs. eapply erase_first_In; eassumption.
Qed.

Lemma erase_first_spec (n : string) (l : list string) :
  NoDup l -> forall m, In m (erase_first n l) <-> In m l /\ m <> n.
Proof.
  induction 1 as [|s l Hs Hl IH]; intros m; simpl; [tauto|].
  destruct (String.eqb n s) eqn:E.
  - apply String.eqb_eq in E. subst s. split.
    + intros H. split; [now right|]. intros ->. contradiction.
    + intros [[H|H] Hne]; [congruence | assumption].
  - apply String.eqb_neq in E. simpl. rewrite IH. split.
    + intros [H|[H Hne]]; [subst m; split; [now left | congruence] | split; [now right | assumption]].
    + intros [[H|H] Hne]; [now left | right; split; assumption].
Qed.

Lemma erase_first_app_new (n : string) (l : list string) :
  ~ In n l -> erase_first n (l ++ [n]) = l.
Proof.
  induction l as [|s l IH]; simpl; intros H.
  - now rewrite String.eqb_refl.
  - destruct (String.eqb n s) eqn:E.
    + apply String.eqb_eq in E. subst s. exfalso. apply H. now left.
    + f_equal. apply IH. intros H'. apply H. now right.
Qed.

(** X20. A call of addnode that returns leaves the list of added nodes
    without duplicates if it had none: add refuses a node that is listed,
    remove and onetry add nothing. *)
Theorem added_nodes_stay_distinct (vAddedNodes : list string) (params : list UniValue)
  (fHelp : bool) (ret : UniValue) (after : list string) (tried : option string) :
  NoDup vAddedNodes ->
  addnode vAddedNodes params fHelp = Returned (ret, after, tried) ->
  NoDup after.
Proof.
  intros Hnd. unfold addnode.
  destruct (if Nat.eqb (List.length params) 2 then get_str (param params 1) else Some "")
    as [strCommand|]; [|discriminate].
  destruct (fHelp || negb (Nat.eqb (List.length params) 2)
            || (negb (String.eqb strCommand "onetry")
                && negb (String.eqb strCommand "add")
                && negb (String.eqb strCommand "remove"))); [discriminate|].
  destruct (get_str (param params 0)) as [strNode|]; [|discriminate].
  destruct (String.eqb strCommand "onetry"); [intros H; inversion H; now subst|].
  destruct (String.eqb strCommand "add").
  - destruct (existsb (String.eqb strNode) vAddedNodes) eqn:E; [discriminate|].
    intros H. inversion H. subst. apply existsb_eqb_not_In in E.
    apply NoDup_app; [assumption | repeat constructor; intros [] |].
    intros x Hx [Hs|[]]. subst x. contradiction.
  - destruct (String.eqb strCommand "remove").
    + destruct (existsb (String.eqb strNode) vAddedNodes); simpl; [|discriminate].
      intros H. inversion H. subst. now apply erase_first_NoDup.
    + intros H. inversion H. now subst.
Qed.

(** X21. Adding a node that is not listed appends it; adding it again is
    refused with RPC_CLIENT_NODE_ALREADY_ADDED; removing it gives back the
    list as it was; removing a node that is not listed is refused with
    RPC_CLIENT_NODE_NOT_ADDED. *)
Theorem addnode_add_then_remove (vAddedNodes : list string) (strNode : string) :
  ~ In strNode vAddedNodes ->
  addnode vAddedNodes [VSTR strNode; VSTR "add"] false
    = Returned (NullUniValue, (vAddedNodes ++ [strNode])%list, None) /\
  addnode (vAddedNodes ++ [strNode]) [VSTR strNode; VSTR "add"] false
    = Threw (JSONRPCError RPC_CLIENT_NODE_ALREADY_ADDED "Error: Node already added") /\
  addnode (vAddedNodes ++ [strNode]) [VSTR strNode; VSTR "remove"] false
    = Returned (NullUniValue, vAddedNodes, None) /\
  addnode vAddedNodes [VSTR strNode; VSTR "remove"] false
    = Threw (JSONRPCError RPC_CLIENT_NODE_NOT_ADDED "Error: Node has not been added.").
Proof.
  intros Hn.
  assert (E1 : existsb (String.eqb strNode) vAddedNodes = false)
    by now apply existsb_eqb_not_In.
  assert (E2 : existsb (String.eqb strNode) (vAddedNodes ++ [strNode]) = true).
  { apply existsb_eqb_In, in_or_app. right. now left. }
  unfold addnode. cbn -[existsb erase_first app]. rewrite E1, E2. cbn -[erase_first app].
  rewrite erase_first_app_new by assumption. repeat split; reflexivity.
Qed.

(** X22. Removing a listed node from a list without duplicates returns,
    and afterwards exactly the other nodes are listed. *)
Theorem removed_node_is_gone (vAddedNodes : list string) (strNode : string) :
  NoDup vAddedNodes -> In strNode vAddedNodes ->
  exists after,
    addnode vAddedNodes [VSTR strNode; VSTR "remove"] false
      = Returned (NullUniValue, after, None) /\
    forall m, In m after <-> In m vAddedNodes /\ m <> strNode.
Proof.
  intros Hnd Hin. exists (erase_first strNode vAddedNodes). split.
  - apply existsb_eqb_In in Hin. unfold addnode. cbn -[existsb erase_first].
    now rewrite Hin.
  - now apply erase_first_spec.
Qed.

Section InfoFacts.

Variable CService : Type.
Variable CService_eqb : CService -> CService -> bool.
Variable CService_ToString : CService -> string.
Variable Lookup : string -> option (list CService).
Variable vNodes : list (CService * bool).

Abbreviation info := (getaddednodeinfo CService_eqb CService_ToString Lookup vNodes).

Lemma first_equal_In (n : string) (l : list string) :
  In n l -> first_equal n l = [n].
Proof.
  induction l as [|s l IH]; simpl; [tauto|]. intros H.
  destruct (String.eqb s n) eqn:E.
  - apply String.eqb_eq in E. now subst.
  - apply String.eqb_neq in E. destruct H as [H|H]; [contradiction | now apply IH].
Qed.

Lemma first_equal_not_In (n : string) (l : list string) :
  ~ In n l -> first_equal n l = [].
Proof.
  induction l as [|s l IH]; simpl; [reflexivity|]. intros H.
  destruct (String.eqb s n) eqn:E.
  - apply String.eqb_eq in E. subst. exfalso. apply H. now left.
  - apply IH. intros H'. apply H. now right.
Qed.

(** X23. Without dns, getaddednodeinfo returns one entry per added node,
    in the order of the list; asked for one node it returns that node's
    entry alone when the node is listed and throws
    RPC_CLIENT_NODE_NOT_ADDED when it is not. *)
Theorem added_node_info_without_dns (vAddedNodes : list string) (strNode : string) :
  info vAddedNodes [VBOOL false] false
    = Returned (VARR (map name_entry vAddedNodes)) /\
  (In strNode vAddedNodes ->
   info vAddedNodes [VBOOL false; VSTR strNode] false
     = Returned (VARR [name_entry strNode])) /\
  (~ In strNode vAddedNodes ->
   forall fDns,
   info vAddedNodes [VBOOL fDns; VSTR strNode] false
     = Threw (JSONRPCError RPC_CLIENT_NODE_NOT_ADDED "Error: Node has not been added.")).
Proof.
  split; [reflexivity|]. split; intros H.
  - unfold getaddednodeinfo. cbn -[first_equal]. now rewrite first_equal_In.
  - intros fDns. unfold getaddednodeinfo. cbn -[first_equal].
    now rewrite first_equal_not_In.
Qed.

Lemma resolve_names (l : list string) :
  map fst (resolve Lookup l) = filter (resolves Lookup) l.
Proof.
  induction l as [|s l IH]; simpl; [reflexivity|]. unfold resolves at 1.
  destruct (Lookup s); simpl; now rewrite IH.
Qed.

Lemma resolve_In (l : list string) (name : string) (addrs : list CService) :
  In (name, addrs) (resolve Lookup l) -> In name l /\ Lookup name = Some addrs.
Proof.
  induction l as [|s l IH]; simpl; [tauto|].
  destruct (Lookup s) as [v|] eqn:E.
  - intros [H|H]; [inversion H; subst; split; [now left | assumption] |].
    destruct (IH H). split; [now right | assumption].
  - intros H. destruct (IH H). split; [now right | assumption].
Qed.

Lemma address_entry_connected (a : CService) :
  snd (address_entry CService_eqb CService_ToString vNodes a)
  = connected_to CService_eqb vNodes a.
Proof.
  unfold address_entry, connected_to.
  induction vNodes as [|p ps IH]; simpl; [reflexivity|].
  destruct (CService_eqb (fst p) a); [reflexivity | exact IH].
Qed.

Lemma entries_connected (addrs : list CService) :
  existsb snd (map (address_entry CService_eqb CService_ToString vNodes) addrs)
  = existsb (connected_to CService_eqb vNodes) addrs.
Proof.
  induction addrs as [|a addrs IH]; simpl; [reflexivity|].
  now rewrite address_entry_connected, IH.
Qed.

(** X24. With dns, getaddednodeinfo answers for the added nodes whose
    lookup succeeds, in the order of the list, and leaves out every node
    whose lookup fails. *)
Theorem unresolved_nodes_are_left_out (vAddedNodes : list string) :
  exists entries,
    info vAddedNodes [VBOOL true] false = Returned (VARR entries) /\
    map (fun e => find_value e "addednode") entries
    = map VSTR (filter (resolves Lookup) vAddedNodes).
Proof.
  eexists. split; [reflexivity|].
  rewrite <- resolve_names, !map_map. apply map_ext. now intros [name addrs].
Qed.

(** X25. With dns, every entry returned is that of an added node whose
    lookup succeeded; it has one address entry for each address found,
    and its connected flag is set exactly when one of these addresses is
    the address of a connected node. *)
Theorem added_node_info_with_dns (vAddedNodes : list string) (entries : list UniValue)
  (e : UniValue) :
  info vAddedNodes [VBOOL true] false = Returned (VARR entries) ->
  In e entries ->
  exists name addrs addresses,
    In name vAddedNodes /\ Lookup name = Some addrs /\
    find_value e "addednode" = VSTR name /\
    find_value e "addresses" = VARR addresses /\
    List.length addresses = List.length addrs /\
    find_value e "connected"
    = VBOOL (existsb (connected_to CService_eqb vNodes) addrs).
Proof.
  intros H He. cbn in H. inversion H. subst entries. clear H.
  apply in_map_iff in He. destruct He as [[name addrs] [<- Hin]].
  apply resolve_In in Hin. destruct Hin as [Hin Hl].
  exists name, addrs. eexists. split; [assumption|]. split; [assumption|].
  split; [reflexivity|]. split; [reflexivity|]. split.
  - simpl. now rewrite !length_map.
  - simpl. f_equal. apply entries_connected.
Qed.

End InfoFacts.
Lemma added_nodes_stay_distinct_witness :
  addnode ["a"] [VSTR "b"; VSTR "add"] false
  = Returned (NullUniValue, ["a"; "b"], None)
  /\ NoDup ["a"; "b"].
Proof.
  split; [reflexivity|].
  apply (@added_nodes_stay_distinct ["a"] [VSTR "b"; VSTR "add"] false
           NullUniValue ["a"; "b"] None).
  - constructor; [intros [] | constructor].
  - reflexivity.
Defined.

Lemma addnode_add_then_remove_witness :
  addnode ["a"] [VSTR "b"; VSTR "add"] false
    = Returned (NullUniValue, (["a"] ++ ["b"])%list, None) /\
  addnode (["a"] ++ ["b"]) [VSTR "b"; VSTR "add"] false
    = Threw (JSONRPCError RPC_CLIENT_NODE_ALREADY_ADDED "Error: Node already added") /\
  addnode (["a"] ++ ["b"]) [VSTR "b"; VSTR "remove"] false
    = Returned (NullUniValue, ["a"], None) /\
  addnode ["a"] [VSTR "b"; VSTR "remove"] false
    = Threw (JSONRPCError RPC_CLIENT_NODE_NOT_ADDED "Error: Node has not been added.").
Proof.
  apply (@addnode_add_then_remove ["a"] "b").
  intros [H|[]]. discriminate H.
Defined.

Lemma removed_node_is_gone_witness :
  exists after,
    addnode ["a"; "b"] [VSTR "a"; VSTR "remove"] false
      = Returned (NullUniValue, after, None) /\
    forall m, In m after <-> In m ["a"; "b"] /\ m <> "a".
Proof.
  apply (@removed_node_is_gone ["a"; "b"] "a").
  - constructor; [intros [H|[]]; discriminate H|].
    constructor; [intros [] | constructor].
  - now left.
Defined.

Lemma added_node_info_with_dns_witness :
  exists name addrs addresses,
    In name ["a"; "b"] /\ ConcreteMore.lookup name = Some addrs /\
    find_value (node_entry Nat.eqb ConcreteMore.address_name ConcreteMore.connected
                  ("a", [1%nat; 2%nat])) "addednode" = VSTR name /\
    find_value (node_entry Nat.eqb ConcreteMore.address_name ConcreteMore.connected
                  ("a", [1%nat; 2%nat])) "addresses" = VARR addresses /\
    List.length addresses = List.length addrs /\
    find_value (node_entry Nat.eqb ConcreteMore.address_name ConcreteMore.connected
                  ("a", [1%nat; 2%nat])) "connected"
    = VBOOL (existsb (connected_to Nat.eqb ConcreteMore.connected) addrs).
Proof.
  apply (@added_node_info_with_dns nat Nat.eqb ConcreteMore.address_name
           ConcreteMore.lookup ConcreteMore.connected ["a"; "b"]
           [node_entry Nat.eqb ConcreteMore.address_name ConcreteMore.connected
              ("a", [1%nat; 2%nat])]).
  - reflexivity.
  - now left.
Defined.

End RpcNetFacts.
